(** * Buscador judicial: verification of [despacho.py]

    The development embeds the pure functions of [despacho.py],
    [search_in_pdf] and [analyze_legal_data], together with the part of
    Python's [re] module, of [str] and of [pandas] they call:

    - [Module Str]: Python [str] values as lists of code points, with
      [strip], single-character [replace] and slicing;
    - [Module Re]: pattern syntax ([parse]), [escape], and the backtracking
      matcher with capture groups behind [finditer] and [findall], written
      over the character database of the runtime;
    - [Module Despacho]: the functions of the source file;
    - [Module Sub]: [re.sub] with its replacement templates;
    - [Module Interfaz]: the two modes of [main], from the upload to the
      export, with the PDF reader and the spreadsheet writer as the steps
      that can raise outside the program;
    - the vocabulary of the statements, then the lemmas and the theorems
      about search and analysis, and further properties of the extractor,
      the search, the highlighting step, the two modes and the analysis. *)

From Stdlib Require Import String Ascii.
From Stdlib Require Import List NArith ZArith Bool Lia Arith.
From Stdlib Require Import Sorting.Sorted.
Import ListNotations.

(* ================================================================== *)
(** * Python strings *)
(* ================================================================== *)

Module Str.

(** A Python [str] is a sequence of Unicode code points. *)
Definition char := N.
Definition str := list char.

(** ** Literals

    The source file is UTF-8; so is this one.  [utf8] decodes the bytes of
    a literal into the code points Python sees. *)

Fixpoint utf8_aux (s : string) (pending : N) (need : nat) : str :=
  match s with
  | EmptyString => []
  | String a s' =>
      let b := N_of_ascii a in
      match need with
      | O =>
          if (b <? 128)%N then b :: utf8_aux s' 0%N 0
          else if (b <? 224)%N then utf8_aux s' (N.land b 31) 1
          else if (b <? 240)%N then utf8_aux s' (N.land b 15) 2
          else utf8_aux s' (N.land b 7) 3
      | S n =>
          let p := (pending * 64 + N.land b 63)%N in
          match n with
          | O => p :: utf8_aux s' 0%N 0
          | S _ => utf8_aux s' p n
          end
      end
  end.

Definition utf8 (s : string) : str := utf8_aux s 0%N 0.

(** Code point of a one-byte literal character. *)
Definition ch (a : ascii) : char := N_of_ascii a.

Definition LF : char := 10%N.
Definition SP : char := 32%N.

(** ** Whitespace

    [str.isspace], [str.strip] and the pattern class [\s] all go through
    CPython's [_PyUnicode_IsWhitespace]; this is its complete case list. *)
Definition isspace (c : char) : bool :=
  ((9 <=? c) && (c <=? 13)            (* TAB LF VT FF CR *)
   || (28 <=? c) && (c <=? 32)        (* FS GS RS US SPACE *)
   || (c =? 133) || (c =? 160)        (* NEL, NO-BREAK SPACE *)
   || (c =? 5760)                     (* OGHAM SPACE MARK *)
   || (8192 <=? c) && (c <=? 8202)    (* EN QUAD .. HAIR SPACE *)
   || (c =? 8232) || (c =? 8233)      (* LINE / PARAGRAPH SEPARATOR *)
   || (c =? 8239) || (c =? 8287)      (* NARROW NBSP, MEDIUM MATH SPACE *)
   || (c =? 12288))%N.                (* IDEOGRAPHIC SPACE *)

(** ** [str.strip()] *)
Fixpoint lstrip (s : str) : str :=
  match s with
  | c :: s' => if isspace c then lstrip s' else s
  | [] => []
  end.

Definition rstrip (s : str) : str := rev (lstrip (rev s)).

Definition strip (s : str) : str := rstrip (lstrip s).

(** ** [str.replace(old, new)] for one-character [old] and [new] *)
Definition replace1 (old new : char) (s : str) : str :=
  map (fun c => if (c =? old)%N then new else c) s.

(** ** Slicing [s[i:j]]

    Python adds [len(s)] to a negative bound and then clamps both bounds
    to [0 .. len(s)]. *)
Definition clamp_index (len i : Z) : Z :=
  let i' := if (i <? 0)%Z then (i + len)%Z else i in
  Z.max 0 (Z.min len i').

Definition slice (s : str) (i j : Z) : str :=
  let len := Z.of_nat (length s) in
  let i' := clamp_index len i in
  let j' := clamp_index len j in
  firstn (Z.to_nat (j' - i')) (skipn (Z.to_nat i') s).

(** Substring with natural bounds, as the matcher reports them. *)
Definition substr (s : str) (b e : nat) : str := firstn (e - b) (skipn b s).

(** [needle in haystack]. *)
Fixpoint is_prefix (p s : str) : bool :=
  match p, s with
  | [], _ => true
  | a :: p', b :: s' => (a =? b)%N && is_prefix p' s'
  | _ :: _, [] => false
  end.

Fixpoint contains (hay needle : str) : bool :=
  is_prefix needle hay ||
  match hay with
  | [] => false
  | _ :: hay' => contains hay' needle
  end.

End Str.

Import Str.

(* ================================================================== *)
(** * The [re] module *)
(* ================================================================== *)

Module Re.

(** ** Character database

    Case mapping and the word and digit classes come from the Unicode
    database of the Python runtime, not from the repository.  The matcher
    is written over any such database [U]; the general theorems below hold
    for every [U]. *)
Record unicode_db : Type := {
  tolower   : char -> char;       (* [_sre.unicode_tolower] *)
  toupper   : char -> char;       (* simple upper-case mapping *)
  isalnum   : char -> bool;       (* [str.isalnum] on one code point *)
  isdecimal : char -> bool;       (* [str.isdecimal] on one code point *)
  fixes     : char -> list char   (* [sre_compile._ignorecase_fixes] *)
}.

(** ** Pattern syntax *)

Inductive category : Type :=
| CatSpace | CatNotSpace | CatWord | CatNotWord | CatDigit | CatNotDigit.

(** Members of a bracketed class. *)
Inductive class_item : Type :=
| CLit (c : char)
| CRange (lo hi : char)
| CCat (k : category).

(** Items that consume exactly one character. *)
Inductive atom : Type :=
| ALit (c : char)
| AAny
| AIn (negate : bool) (items : list class_item).

Inductive regex : Type :=
| Eps
| Chr (a : atom)
| Rep (min : nat) (max : option nat) (a : atom)   (* greedy repeat *)
| Seq (r1 r2 : regex)
| Alt (r1 r2 : regex)
| Group (n : nat) (r : regex).

(** A compiled pattern: syntax tree, number of groups, IGNORECASE flag. *)
Record pattern : Type := {
  p_re     : regex;
  p_groups : nat;
  p_icase  : bool
}.

(** Capture marks, most recent first. *)
Definition captures := list (nat * (nat * nat)).

Fixpoint lookup (n : nat) (caps : captures) : option (nat * nat) :=
  match caps with
  | [] => None
  | (m, span) :: caps' => if Nat.eqb n m then Some span else lookup n caps'
  end.

(** One match: [m.start()], [m.end()] and the group marks. *)
Record rmatch : Type := {
  m_start : nat;
  m_end   : nat;
  m_caps  : captures
}.

(** Code points [lo .. hi]. *)
Definition char_range (lo hi : char) : list char :=
  map (fun k => (lo + N.of_nat k)%N) (seq 0 (N.to_nat (hi + 1 - lo))).

Section Matcher.

Variable U : unicode_db.

Definition iscased (c : char) : bool :=
  negb (c =? tolower U c)%N || negb (c =? toupper U c)%N.

Definition mem (c : char) (l : list char) : bool := existsb (N.eqb c) l.

(** A literal.  Under IGNORECASE a cased literal is compiled to its lower
    case [lo] (with the equivalents listed in [fixes]) and compared with
    the lower case of the text character; an uncased one is compared as
    it is. *)
Definition lit_match (icase : bool) (p c : char) : bool :=
  if icase && iscased p then
    let lo := tolower U p in
    let lc := tolower U c in
    (lc =? lo)%N || mem lc (fixes U lo)
  else (c =? p)%N.

Definition cat_match (k : category) (c : char) : bool :=
  match k with
  | CatSpace => isspace c
  | CatNotSpace => negb (isspace c)
  | CatWord => isalnum U c || (c =? 95)%N
  | CatNotWord => negb (isalnum U c || (c =? 95)%N)
  | CatDigit => isdecimal U c
  | CatNotDigit => negb (isdecimal U c)
  end.

(** A class.  Without IGNORECASE, or when none of its literals and ranges
    is cased, the text character is tested as it is.  Otherwise the
    compiler lowers every literal and every member of every range, adds
    their [fixes], and the matcher tests the lower case of the text
    character (categories included). *)
Definition lowered (c : char) : list char :=
  let lo := tolower U c in lo :: fixes U lo.

Definition item_hascased (it : class_item) : bool :=
  match it with
  | CLit c => iscased c
  | CRange lo hi => existsb iscased (char_range lo hi)
  | CCat _ => false
  end.

Definition item_match_plain (c : char) (it : class_item) : bool :=
  match it with
  | CLit l => (c =? l)%N
  | CRange lo hi => (lo <=? c)%N && (c <=? hi)%N
  | CCat k => cat_match k c
  end.

Definition item_match_lowered (lc : char) (it : class_item) : bool :=
  match it with
  | CLit l => mem lc (lowered l)
  | CRange lo hi => existsb (fun x => mem lc (lowered x)) (char_range lo hi)
  | CCat k => cat_match k lc
  end.

Definition in_match (icase : bool) (items : list class_item) (c : char) : bool :=
  if icase && existsb item_hascased items
  then existsb (item_match_lowered (tolower U c)) items
  else existsb (item_match_plain c) items.

Definition atom_match (icase : bool) (a : atom) (c : char) : bool :=
  match a with
  | ALit p => lit_match icase p c
  | AAny => negb (c =? LF)%N
  | AIn negate items => xorb negate (in_match icase items c)
  end.

(** ** The backtracking matcher

    [rest] is the text from position [pos] on; [k] is the continuation
    that matches what follows in the pattern.  The first success wins. *)

Definition cont := str -> nat -> captures -> option (nat * captures).

(** Greedy repeat of a one-character item: take as many as possible (at
    most [max]), then give characters back one at a time, never fewer
    than [min]. *)
Fixpoint rep_greedy (icase : bool) (a : atom) (min : nat) (max : option nat)
    (count : nat) (rest : str) (pos : nat) (caps : captures) (k : cont)
    : option (nat * captures) :=
  let stop := if min <=? count then k rest pos caps else None in
  let room := match max with Some m => count <? m | None => true end in
  match rest with
  | c :: rest' =>
      if room && atom_match icase a c then
        match rep_greedy icase a min max (S count) rest' (S pos) caps k with
        | Some res => Some res
        | None => stop
        end
      else stop
  | [] => stop
  end.

Fixpoint run (icase : bool) (r : regex) (rest : str) (pos : nat)
    (caps : captures) (k : cont) : option (nat * captures) :=
  match r with
  | Eps => k rest pos caps
  | Chr a =>
      match rest with
      | c :: rest' => if atom_match icase a c then k rest' (S pos) caps else None
      | [] => None
      end
  | Rep min max a => rep_greedy icase a min max 0 rest pos caps k
  | Seq r1 r2 =>
      run icase r1 rest pos caps (fun rest' pos' caps' => run icase r2 rest' pos' caps' k)
  | Alt r1 r2 =>
      match run icase r1 rest pos caps k with
      | Some res => Some res
      | None => run icase r2 rest pos caps k
      end
  | Group n r1 =>
      run icase r1 rest pos caps
          (fun rest' pos' caps' => k rest' pos' ((n, (pos, pos')) :: caps'))
  end.

(** End of the pattern.  After an empty match the scanner sets
    [must_advance]: an empty match at the same place is then refused. *)
Definition accept (must_advance : bool) (start : nat) : cont :=
  fun _ pos caps =>
    if must_advance && Nat.eqb pos start then None else Some (pos, caps).

Definition match_at (p : pattern) (rest : str) (pos : nat) (must_advance : bool)
    : option (nat * captures) :=
  run (p_icase p) (p_re p) rest pos [] (accept must_advance pos).

(** ** [finditer]

    The scanner tries each start position from left to right.  After a
    match ending at [e] it resumes at [e]; [must_advance] holds for the
    first attempt only, and only after an empty match. *)
Fixpoint scan (fuel : nat) (p : pattern) (rest : str) (pos : nat)
    (must_advance : bool) : list rmatch :=
  match fuel with
  | O => []
  | S fuel' =>
      match match_at p rest pos must_advance with
      | Some (e, caps) =>
          {| m_start := pos; m_end := e; m_caps := caps |}
            :: scan fuel' p (skipn (e - pos) rest) e (Nat.eqb e pos)
      | None =>
          match rest with
          | [] => []
          | _ :: rest' => scan fuel' p rest' (S pos) false
          end
      end
  end.

(** Two attempts per position are enough: one that may be empty, one
    that must advance. *)
Definition finditer (p : pattern) (text : str) : list rmatch :=
  scan (2 * length text + 2) p text 0 false.

(** [m.group(0)] and [m.group(n)] ([None] for a group that took no part). *)
Definition group0 (text : str) (m : rmatch) : str :=
  substr text (m_start m) (m_end m).

Definition group (text : str) (m : rmatch) (n : nat) : option str :=
  match lookup n (m_caps m) with
  | Some (b, e) => Some (substr text b e)
  | None => None
  end.

(** ** [findall]

    With no group the items are the whole matches, with one group the
    text of that group, with several a tuple of all groups; a group that
    took no part gives the empty string. *)
Inductive item : Type :=
| IStr (s : str)
| ITuple (t : list str).

Definition group_or_empty (text : str) (m : rmatch) (n : nat) : str :=
  match group text m n with Some s => s | None => [] end.

Definition findall_item (p : pattern) (text : str) (m : rmatch) : item :=
  match p_groups p with
  | 0 => IStr (group0 text m)
  | 1 => IStr (group_or_empty text m 1)
  | S (S _) => ITuple (map (group_or_empty text m) (seq 1 (p_groups p)))
  end.

Definition findall (p : pattern) (text : str) : list item :=
  map (findall_item p text) (finditer p text).

End Matcher.

(** ** Pattern syntax: [re.escape] and the parser

    Special characters of the pattern language. *)
Definition BSL  : char := ch "\".
Definition LPAR : char := ch "(".
Definition RPAR : char := ch ")".
Definition LBR  : char := ch "[".
Definition RBR  : char := ch "]".
Definition LBRC : char := ch "{".
Definition BAR  : char := ch "|".
Definition STAR : char := ch "*".
Definition PLUS : char := ch "+".
Definition QM   : char := ch "?".
Definition DOT  : char := ch ".".
Definition CARET : char := ch "^".
Definition DOLLAR : char := ch "$".
Definition DASH : char := ch "-".

(** [re.escape] (Python 3.7 and later) puts a backslash before each of
    [()[]{}?*+-|^$\.&~#], space, TAB, LF, CR, VT and FF, and before
    nothing else. *)
Definition special_chars : list char :=
  utf8 "()[]{}?*+-|^$\.&~# " ++ [9; 10; 13; 11; 12]%N.

Definition is_special (c : char) : bool := existsb (N.eqb c) special_chars.

Fixpoint escape (s : str) : str :=
  match s with
  | [] => []
  | c :: s' => if is_special c then BSL :: c :: escape s' else c :: escape s'
  end.

Definition is_ascii_letter (c : char) : bool :=
  ((65 <=? c) && (c <=? 90) || (97 <=? c) && (c <=? 122))%N.

Definition is_ascii_digit (c : char) : bool := ((48 <=? c) && (c <=? 57))%N.

(** What a backslash followed by [c] stands for. *)
Inductive escaped : Type :=
| EscLit (c : char)
| EscCat (k : category).

(** [None] is a bad escape or one outside the fragment modelled here
    (anchors, back-references, numeric escapes). *)
Definition parse_escape (in_class : bool) (c : char) : option escaped :=
  if (c =? ch "s")%N then Some (EscCat CatSpace)
  else if (c =? ch "S")%N then Some (EscCat CatNotSpace)
  else if (c =? ch "w")%N then Some (EscCat CatWord)
  else if (c =? ch "W")%N then Some (EscCat CatNotWord)
  else if (c =? ch "d")%N then Some (EscCat CatDigit)
  else if (c =? ch "D")%N then Some (EscCat CatNotDigit)
  else if (c =? ch "a")%N then Some (EscLit 7%N)
  else if (c =? ch "b")%N then (if in_class then Some (EscLit 8%N) else None)
  else if (c =? ch "f")%N then Some (EscLit 12%N)
  else if (c =? ch "n")%N then Some (EscLit 10%N)
  else if (c =? ch "r")%N then Some (EscLit 13%N)
  else if (c =? ch "t")%N then Some (EscLit 9%N)
  else if (c =? ch "v")%N then Some (EscLit 11%N)
  else if is_ascii_letter c || is_ascii_digit c then None
  else Some (EscLit c).

Definition class_item_of (e : escaped) : class_item :=
  match e with
  | EscLit c => CLit c
  | EscCat k => CCat k
  end.

Definition atom_of (e : escaped) : atom :=
  match e with
  | EscLit c => ALit c
  | EscCat k => AIn false [CCat k]
  end.

(** One member of a class: a character or an escape. *)
Definition class_token (s : str) : option (escaped * str) :=
  match s with
  | [] => None
  | c :: s' =>
      if (c =? BSL)%N then
        match s' with
        | d :: s'' =>
            match parse_escape true d with
            | Some e => Some (e, s'')
            | None => None
            end
        | [] => None
        end
      else Some (EscLit c, s')
  end.

(** The members of a class up to the closing bracket.  A bracket that
    comes first is a member; [x-y] is a range unless [y] is the closing
    bracket. *)
Fixpoint parse_class (fuel : nat) (s : str) (acc : list class_item)
    : option (list class_item * str) :=
  match fuel with
  | O => None
  | S fuel' =>
      match s with
      | [] => None
      | c :: s0 =>
          if (c =? RBR)%N && negb (match acc with [] => true | _ => false end)
          then Some (rev acc, s0)
          else
            match class_token s with
            | None => None
            | Some (e1, s1) =>
                match s1 with
                | [] => None
                | d :: s2 =>
                    if (d =? DASH)%N then
                      match s2 with
                      | [] => None
                      | d2 :: s3 =>
                          if (d2 =? RBR)%N
                          then Some (rev (CLit DASH :: class_item_of e1 :: acc), s3)
                          else
                            match e1, class_token s2 with
                            | EscLit lo, Some (EscLit hi, s4) =>
                                if (lo <=? hi)%N
                                then parse_class fuel' s4 (CRange lo hi :: acc)
                                else None
                            | _, _ => None
                            end
                      end
                    else parse_class fuel' s1 (class_item_of e1 :: acc)
                end
            end
      end
  end.

(** A one-character item at the head of [s]. *)
Definition parse_atom (s : str) : option (atom * str) :=
  match s with
  | [] => None
  | c :: s' =>
      if (c =? BSL)%N then
        match s' with
        | d :: s'' =>
            match parse_escape false d with
            | Some e => Some (atom_of e, s'')
            | None => None
            end
        | [] => None
        end
      else if (c =? LBR)%N then
        match s' with
        | d :: s'' =>
            let negate := (d =? CARET)%N in
            match parse_class (length s') (if negate then s'' else s') [] with
            | Some (items, s1) => Some (AIn negate items, s1)
            | None => None
            end
        | [] => None
        end
      else if (c =? DOT)%N then Some (AAny, s')
      else if (c =? LPAR)%N || (c =? RPAR)%N || (c =? BAR)%N
              || (c =? STAR)%N || (c =? PLUS)%N || (c =? QM)%N
              || (c =? LBRC)%N || (c =? CARET)%N || (c =? DOLLAR)%N
      then None
      else Some (ALit c, s')
  end.

Definition is_quantifier (c : char) : bool :=
  ((c =? STAR) || (c =? PLUS) || (c =? QM) || (c =? LBRC))%N.

Definition starts_with_quantifier (s : str) : bool :=
  match s with
  | c :: _ => is_quantifier c
  | [] => false
  end.

(** The greedy quantifiers [*], [+] and [?] after a one-character item.
    Lazy and possessive forms, counted repeats and a second quantifier
    are outside the fragment. *)
Definition parse_quantified (a : atom) (s : str) : option (regex * str) :=
  match s with
  | c :: s' =>
      if is_quantifier c then
        if starts_with_quantifier s' then None
        else if (c =? STAR)%N then Some (Rep 0 None a, s')
        else if (c =? PLUS)%N then Some (Rep 1 None a, s')
        else if (c =? QM)%N then Some (Rep 0 (Some 1) a, s')
        else None
      else Some (Chr a, s)
  | [] => Some (Chr a, s)
  end.

(** The grammar: alternatives of sequences of items; an item is a group
    or a one-character item with an optional quantifier.  [g] counts the
    groups opened so far; groups are numbered by their opening
    parenthesis.  The result is the tree, the unread input and the new
    count. *)
Fixpoint parse_alt (fuel : nat) (s : str) (g : nat) {struct fuel}
    : option (regex * str * nat) :=
  match fuel with
  | O => None
  | S fuel' =>
      match parse_seq fuel' s g with
      | Some (r1, s1, g1) =>
          match s1 with
          | c :: s2 =>
              if (c =? BAR)%N then
                match parse_alt fuel' s2 g1 with
                | Some (r2, s3, g2) => Some (Alt r1 r2, s3, g2)
                | None => None
                end
              else Some (r1, s1, g1)
          | [] => Some (r1, s1, g1)
          end
      | None => None
      end
  end
with parse_seq (fuel : nat) (s : str) (g : nat) {struct fuel}
    : option (regex * str * nat) :=
  match fuel with
  | O => None
  | S fuel' =>
      match s with
      | [] => Some (Eps, s, g)
      | c :: _ =>
          if (c =? BAR)%N || (c =? RPAR)%N then Some (Eps, s, g)
          else
            match parse_item fuel' s g with
            | Some (r1, s1, g1) =>
                match parse_seq fuel' s1 g1 with
                | Some (r2, s2, g2) => Some (Seq r1 r2, s2, g2)
                | None => None
                end
            | None => None
            end
      end
  end
with parse_item (fuel : nat) (s : str) (g : nat) {struct fuel}
    : option (regex * str * nat) :=
  match fuel with
  | O => None
  | S fuel' =>
      match s with
      | [] => None
      | c :: s' =>
          if (c =? LPAR)%N then
            match s' with
            | q :: _ =>
                if (q =? QM)%N then None
                else
                  match parse_alt fuel' s' (S g) with
                  | Some (r, s1, g1) =>
                      match s1 with
                      | d :: s2 =>
                          if (d =? RPAR)%N && negb (starts_with_quantifier s2)
                          then Some (Group (S g) r, s2, g1)
                          else None
                      | [] => None
                      end
                  | None => None
                  end
            | [] => None
            end
          else
            match parse_atom s with
            | Some (a, s1) =>
                match parse_quantified a s1 with
                | Some (r, s2) => Some (r, s2, g)
                | None => None
                end
            | None => None
            end
      end
  end.

Definition parse (s : str) : option (regex * nat) :=
  match parse_alt (3 * length s + 3) s 0 with
  | Some (r, [], g) => Some (r, g)
  | _ => None
  end.

(** [re.compile(pattern, flags)]: [None] when Python raises [re.error]
    (or the pattern is outside the fragment). *)
Definition compile (s : str) (icase : bool) : option pattern :=
  match parse s with
  | Some (r, g) => Some {| p_re := r; p_groups := g; p_icase := icase |}
  | None => None
  end.

(** The sequence of literals [s]: what an escaped query parses to. *)
Fixpoint literals (s : str) : regex :=
  match s with
  | [] => Eps
  | c :: s' => Seq (Chr (ALit c)) (literals s')
  end.

(** ** A database for Latin-1 text

    [latin1] is the runtime's database on the code points up to U+00FF,
    where every character of the pattern table lies, with the code points
    above whose lower case lies there.  Other code points are left
    uncased and outside the word and digit classes. *)
Definition latin1_tolower (c : char) : char :=
  if ((65 <=? c) && (c <=? 90))%N then (c + 32)%N
  else if ((192 <=? c) && (c <=? 222) && negb (c =? 215))%N then (c + 32)%N
  else if (c =? 304)%N then 105%N        (* U+0130 -> i *)
  else if (c =? 376)%N then 255%N        (* U+0178 -> U+00FF *)
  else if (c =? 7838)%N then 223%N       (* U+1E9E -> U+00DF *)
  else if (c =? 8490)%N then 107%N       (* KELVIN SIGN -> k *)
  else if (c =? 8491)%N then 229%N       (* ANGSTROM SIGN -> U+00E5 *)
  else c.

Definition latin1_toupper (c : char) : char :=
  if ((97 <=? c) && (c <=? 122))%N then (c - 32)%N
  else if ((224 <=? c) && (c <=? 254) && negb (c =? 247))%N then (c - 32)%N
  else if (c =? 181)%N then 924%N        (* MICRO SIGN -> U+039C *)
  else if (c =? 223)%N then 83%N         (* U+00DF: first of SS *)
  else if (c =? 255)%N then 376%N        (* U+00FF -> U+0178 *)
  else if (c =? 305)%N then 73%N         (* DOTLESS I -> I *)
  else if (c =? 383)%N then 83%N         (* LONG S -> S *)
  else c.

Definition latin1_isdecimal (c : char) : bool := ((48 <=? c) && (c <=? 57))%N.

Definition latin1_isalnum (c : char) : bool :=
  ((48 <=? c) && (c <=? 57) || (65 <=? c) && (c <=? 90)
   || (97 <=? c) && (c <=? 122)
   || (c =? 170) || (c =? 178) || (c =? 179) || (c =? 181)
   || (c =? 185) || (c =? 186) || (188 <=? c) && (c <=? 190)
   || (192 <=? c) && (c <=? 214) || (216 <=? c) && (c <=? 246)
   || (248 <=? c) && (c <=? 255))%N.

(** The equivalences of [sre_compile] that touch Latin-1. *)
Definition latin1_fixes (c : char) : list char :=
  if (c =? 105)%N then [305%N]           (* i, DOTLESS I *)
  else if (c =? 305)%N then [105%N]
  else if (c =? 115)%N then [383%N]      (* s, LONG S *)
  else if (c =? 383)%N then [115%N]
  else if (c =? 181)%N then [956%N]      (* MICRO SIGN, GREEK MU *)
  else if (c =? 956)%N then [181%N]
  else [].

Definition latin1 : unicode_db := {|
  tolower := latin1_tolower;
  toupper := latin1_toupper;
  isalnum := latin1_isalnum;
  isdecimal := latin1_isdecimal;
  fixes := latin1_fixes
|}.

End Re.

Import Re.

(* ================================================================== *)
(** * [despacho.py] *)
(* ================================================================== *)

Module Despacho.

(** ** Data *)

(** [{"page": i + 1, "text": text}] *)
Record page : Type := {
  page_number : Z;
  page_text   : str
}.

(** One row of the search result:
    [{"Página": ..., "Coincidencia": ..., "Contexto": ...}]. *)
Record hit : Type := {
  Pagina       : Z;
  Coincidencia : str;
  Contexto     : str
}.

(** The keys of the pattern table. *)
Inductive Category : Type :=
| Juzgado | Expediente | Secretaria | Demandante | Demandado.

Definition label (k : Category) : str :=
  match k with
  | Juzgado => utf8 "Juzgado"
  | Expediente => utf8 "Expediente"
  | Secretaria => utf8 "Secretaría"
  | Demandante => utf8 "Demandante"
  | Demandado => utf8 "Demandado"
  end.

(** One row of the analysis: [{"Categoría": key, "Valor": ...}]. *)
Record row : Type := {
  Categoria : Category;
  Valor     : str
}.

Definition Category_eq_dec (a b : Category) : {a = b} + {a <> b}.
Proof. decide equality. Defined.

Definition row_eq_dec (a b : row) : {a = b} + {a <> b}.
Proof.
  decide equality.
  - apply (list_eq_dec N.eq_dec).
  - apply Category_eq_dec.
Defined.

(** ** [extract_text_with_pages]

    [doc] is the text of each page as the PDF library yields it, in
    document order; pages are numbered from 1. *)
Fixpoint enumerate_from (i : Z) (doc : list str) : list page :=
  match doc with
  | [] => []
  | text :: doc' =>
      {| page_number := i + 1; page_text := text |} :: enumerate_from (i + 1) doc'
  end.

Definition extract_text_with_pages (doc : list str) : list page :=
  enumerate_from 0 doc.

(** ** [pandas.DataFrame.drop_duplicates]: the first of equal rows stays. *)
Fixpoint drop_duplicates_from (seen : list row) (rows : list row) : list row :=
  match rows with
  | [] => []
  | r :: rows' =>
      if in_dec row_eq_dec r seen then drop_duplicates_from seen rows'
      else r :: drop_duplicates_from (r :: seen) rows'
  end.

Definition drop_duplicates (rows : list row) : list row :=
  drop_duplicates_from [] rows.

Section Program.

Variable U : unicode_db.

(** ** [search_in_pdf] *)

(** The body of the inner loop: one row per match. *)
Definition hit_of (page_info : page) (m : rmatch) : hit :=
  let text := page_text page_info in
  let start := Z.max 0 (Z.of_nat (m_start m) - 100) in
  let end_ := Z.min (Z.of_nat (length text)) (Z.of_nat (m_end m) + 100) in
  let context := replace1 LF SP (slice text start end_) in
  {| Pagina := page_number page_info;
     Coincidencia := group0 text m;
     Contexto := context |}.

Definition search_in_pdf (pages_text : list page) (query : str)
    : option (list hit) :=
  match compile (escape query) true with
  | None => None
  | Some pattern =>
      Some (flat_map
              (fun page_info =>
                 map (hit_of page_info)
                     (finditer U pattern (page_text page_info)))
              pages_text)
  end.

(** The caller in [main]: [if query: results = search_in_pdf(...)].
    An empty query runs no search. *)
Definition main_search (pages_text : list page) (query : str)
    : option (option (list hit)) :=
  match query with
  | [] => None
  | _ :: _ => Some (search_in_pdf pages_text query)
  end.

(** ** [analyze_legal_data] *)

Definition patterns : list (Category * str) :=
  [ (Juzgado,    utf8 "(Juzgado|Sala|Tribunal)[\s\wº°\d\-\.]*");
    (Expediente, utf8 "(Expediente|T\.|Toca|Juicio|Proceso|Asunto)\s*[A-Z0-9\/\-\.]+");
    (Secretaria, utf8 "(Secretar[ií]a|Despacho)\s*[\w\d\sº°#\-]*");
    (Demandante, utf8 "(Demandante|Actor|Parte\s+Actora)[:\s]+([A-ZÁÉÍÓÚÑa-z\s\.]+)");
    (Demandado,  utf8 "(Demandado|Demandada|Parte\s+Demandada)[:\s]+([A-ZÁÉÍÓÚÑa-z\s\.]+)") ].

(** [re.findall(pattern, text, re.IGNORECASE)] *)
Definition re_findall (pat text : str) : option (list item) :=
  match compile pat true with
  | Some p => Some (findall U p text)
  | None => None
  end.

(** The body of the inner loop: [m[-1].strip()] for a tuple, [m.strip()]
    for a string. *)
Definition row_of (key : Category) (m : item) : row :=
  match m with
  | ITuple t => {| Categoria := key; Valor := strip (last t []) |}
  | IStr s => {| Categoria := key; Valor := strip s |}
  end.

(** The outer loop over [patterns.items()], in insertion order. *)
Fixpoint collect (table : list (Category * str)) (text : str)
    : option (list row) :=
  match table with
  | [] => Some []
  | (key, pat) :: table' =>
      match re_findall pat text with
      | None => None
      | Some matches =>
          match collect table' text with
          | None => None
          | Some more => Some (map (row_of key) matches ++ more)
          end
      end
  end.

Definition analyze_legal_data (text : str) : option (list row) :=
  match collect patterns text with
  | Some results => Some (drop_duplicates results)
  | None => None
  end.

End Program.

End Despacho.

Import Despacho.

(* ================================================================== *)
(** * [re.sub] *)
(* ================================================================== *)

Module Sub.

(** ** Replacement templates

    A template is read into literal characters and group references. *)
Inductive tpart : Type :=
| TLit (c : char)
| TGroup (n : nat).

(** The character escapes of a template. *)
Definition template_escape (d : char) : option char :=
  if (d =? ch "a")%N then Some 7%N
  else if (d =? ch "b")%N then Some 8%N
  else if (d =? ch "f")%N then Some 12%N
  else if (d =? ch "n")%N then Some 10%N
  else if (d =? ch "r")%N then Some 13%N
  else if (d =? ch "t")%N then Some 9%N
  else if (d =? ch "v")%N then Some 11%N
  else if (d =? BSL)%N then Some BSL
  else None.

Definition starts_with_digit (s : str) : bool :=
  match s with
  | c :: _ => is_ascii_digit c
  | [] => false
  end.

(** [parse_template]: a backslash takes the next character with it.  A
    digit from 1 to 9 refers to a group, which must exist; a known escape
    gives its character; another ASCII letter is a bad escape; anything
    else stays as written, backslash included.  [None] is an error, or a
    form outside the fragment modelled here (named references, octal
    escapes, references of two digits). *)
Fixpoint parse_template (groups : nat) (s : str) : option (list tpart) :=
  match s with
  | [] => Some []
  | c :: s' =>
      if (c =? BSL)%N then
        match s' with
        | [] => None
        | d :: s'' =>
            if (d =? ch "g")%N || (d =? ch "0")%N then None
            else if is_ascii_digit d then
              if starts_with_digit s'' then None
              else
                let n := N.to_nat (d - 48) in
                if n <=? groups then
                  match parse_template groups s'' with
                  | Some t => Some (TGroup n :: t)
                  | None => None
                  end
                else None
            else
              match template_escape d with
              | Some l =>
                  match parse_template groups s'' with
                  | Some t => Some (TLit l :: t)
                  | None => None
                  end
              | None =>
                  if is_ascii_letter d then None
                  else
                    match parse_template groups s'' with
                    | Some t => Some (TLit BSL :: TLit d :: t)
                    | None => None
                    end
              end
        end
      else
        match parse_template groups s' with
        | Some t => Some (TLit c :: t)
        | None => None
        end
  end.

(** [m.expand(template)]; a group that took no part gives the empty
    string. *)
Definition expand (text : str) (m : rmatch) (t : list tpart) : str :=
  flat_map (fun part =>
              match part with
              | TLit c => [c]
              | TGroup n => group_or_empty text m n
              end) t.

(** ** Substitution

    The text between the matches is kept, each match gives way to its
    replacement; [i] is the end of the previous match. *)
Fixpoint sub_from (text : str) (i : nat) (ms : list rmatch)
    (repl : rmatch -> str) : str :=
  match ms with
  | [] => skipn i text
  | m :: ms' =>
      substr text i (m_start m) ++ repl m ++ sub_from text (m_end m) ms' repl
  end.

(** [pattern.sub(template, text)]: the matches are those of [finditer]. *)
Definition sub (U : unicode_db) (p : pattern) (t : list tpart) (text : str)
    : str :=
  sub_from text 0 (finditer U p text) (fun m => expand text m t).

(** A pattern string that may begin with the inline flag [(?i)]. *)
Definition compile_inline (s : str) : option pattern :=
  match s with
  | 40%N :: 63%N :: 105%N :: 41%N :: s' => compile s' true
  | _ => compile s false
  end.

(** [re.sub(pattern, repl, text)] *)
Definition re_sub (U : unicode_db) (pat repl text : str) : option str :=
  match compile_inline pat with
  | None => None
  | Some p =>
      match parse_template (p_groups p) repl with
      | None => None
      | Some t => Some (sub U p t text)
      end
  end.

End Sub.

Import Sub.

(* ================================================================== *)
(** * [main]: the decisions of the interface *)
(* ================================================================== *)

Module Interfaz.

(** [sep.join(parts)] *)
Fixpoint join (sep : str) (parts : list str) : str :=
  match parts with
  | [] => []
  | s :: parts' =>
      match parts' with
      | [] => s
      | _ :: _ => s ++ sep ++ join sep parts'
      end
  end.

(** [" ".join([p["text"] for p in pages_text])] *)
Definition full_text (pages_text : list page) : str :=
  join [SP] (map page_text pages_text).

Definition opciones : list str :=
  [utf8 "Personalizado"; utf8 "Juzgado"; utf8 "Expediente";
   utf8 "Secretaría"; utf8 "Demandante"; utf8 "Demandado"; utf8 "Despacho"].

Definition str_eq_dec : forall a b : str, {a = b} + {a <> b} :=
  list_eq_dec N.eq_dec.

(** The query of mode 1: the text typed for [Personalizado], the chosen
    option itself otherwise. *)
Definition main_query (tipo_busqueda texto : str) : str :=
  if str_eq_dec tipo_busqueda (utf8 "Personalizado") then texto
  else tipo_busqueda.

(** The pattern and the template of the highlighting step. *)
Definition highlight_pattern (query : str) : str :=
  utf8 "(?i)(" ++ escape query ++ utf8 ")".

Definition mark_template : str :=
  utf8 "<mark style='background-color:#00B4D8;color:black;'><b>\\1</b></mark>".

(** The upload, as [extract_text_with_pages] meets it: [fitz.open] or
    [page.get_text] raises on a file it cannot read; otherwise the
    document gives the texts of its pages. *)
Inductive archivo : Type :=
| Ilegible
| Documento (doc : list str).

(** What mode 1 shows. *)
Inductive busqueda : Type :=
| SinArchivo                        (* [if uploaded_pdf:] fails *)
| SinConsulta                       (* [if query:] fails: nothing is shown *)
| SinCoincidencias                  (* [st.warning] *)
| Coincidencias (df : list hit) (lineas : list (Z * str)).
                                    (* the table, exported, and one line
                                       per row: page number and
                                       highlighted context *)

(** What mode 2 shows. *)
Inductive analisis : Type :=
| SinDocumento                      (* [if uploaded_pdf:] fails *)
| SinDatos                          (* [st.warning] *)
| Datos (df_auto : list row).       (* the table, exported *)

Section Main.

Variable U : unicode_db.

(** [pd.ExcelWriter] with [df.to_excel]: the writer is outside the
    program, and raises on a table it rejects ([false]).  Nothing is
    assumed of it. *)
Variable to_excel_hits : list hit -> bool.
Variable to_excel_rows : list row -> bool.

Definition highlighted (query contexto : str) : option str :=
  re_sub U (highlight_pattern query) mark_template contexto.

(** The loop over [df.iterrows()]. *)
Fixpoint highlight_rows (query : str) (df : list hit)
    : option (list (Z * str)) :=
  match df with
  | [] => Some []
  | fila :: df' =>
      match highlighted query (Contexto fila) with
      | None => None
      | Some h =>
          match highlight_rows query df' with
          | None => None
          | Some lineas => Some ((Pagina fila, h) :: lineas)
          end
      end
  end.

(** Mode 1 of [main], in the order of the source: the upload is read,
    the query chosen, the pages searched, the table exported, the rows
    highlighted.  [None] is an exception.  The calls that only display
    ([st.success], [st.dataframe], [st.download_button], [st.markdown],
    [st.warning]) are taken to return. *)
Definition main_busqueda (uploaded_pdf : option archivo)
    (tipo_busqueda texto : str) : option busqueda :=
  match uploaded_pdf with
  | None => Some SinArchivo
  | Some Ilegible => None
  | Some (Documento doc) =>
      let pages_text := extract_text_with_pages doc in
      let query := main_query tipo_busqueda texto in
      match query with
      | [] => Some SinConsulta
      | _ :: _ =>
          match search_in_pdf U pages_text query with
          | None => None
          | Some [] => Some SinCoincidencias
          | Some (fila :: filas) =>
              if to_excel_hits (fila :: filas) then
                match highlight_rows query (fila :: filas) with
                | None => None
                | Some lineas => Some (Coincidencias (fila :: filas) lineas)
                end
              else None
          end
      end
  end.

(** Mode 2 of [main]: the upload is read, the joined text analysed, the
    table exported. *)
Definition main_analisis (uploaded_pdf : option archivo) : option analisis :=
  match uploaded_pdf with
  | None => Some SinDocumento
  | Some Ilegible => None
  | Some (Documento doc) =>
      let pages_text := extract_text_with_pages doc in
      match analyze_legal_data U (full_text pages_text) with
      | None => None
      | Some [] => Some SinDatos
      | Some (fila :: filas) =>
          if to_excel_rows (fila :: filas) then Some (Datos (fila :: filas))
          else None
      end
  end.

End Main.

End Interfaz.

Import Interfaz.

(* ================================================================== *)
(** * Vocabulary of the statements *)
(* ================================================================== *)

(** ** Patterns and matches *)

(** Groups that occur in a pattern. *)
Fixpoint groups_of (r : regex) : list nat :=
  match r with
  | Eps | Chr _ | Rep _ _ _ => []
  | Seq r1 r2 | Alt r1 r2 => groups_of r1 ++ groups_of r2
  | Group n r1 => n :: groups_of r1
  end.

Definition within (max : option nat) (n : nat) : Prop :=
  match max with
  | Some m => n <= m
  | None => True
  end.

(** A lower bound on the length of the words of a pattern. *)
Fixpoint min_width (r : regex) : nat :=
  match r with
  | Eps => 0
  | Chr _ => 1
  | Rep min _ _ => min
  | Seq r1 r2 => min_width r1 + min_width r2
  | Alt r1 r2 => Nat.min (min_width r1) (min_width r2)
  | Group _ r1 => min_width r1
  end.

(** The words a pattern can consume. *)
Fixpoint lang (U : unicode_db) (icase : bool) (r : regex) (w : str) : Prop :=
  match r with
  | Eps => w = []
  | Chr a => exists c, w = [c] /\ atom_match U icase a c = true
  | Rep min max a =>
      min <= length w /\ within max (length w)
      /\ Forall (fun c => atom_match U icase a c = true) w
  | Seq r1 r2 =>
      exists w1 w2, w = w1 ++ w2 /\ lang U icase r1 w1 /\ lang U icase r2 w2
  | Alt r1 r2 => lang U icase r1 w \/ lang U icase r2 w
  | Group _ r1 => lang U icase r1 w
  end.

(** [q] occurs at the head of [rest], literal by literal. *)
Fixpoint lit_prefix (U : unicode_db) (icase : bool) (q rest : str) : bool :=
  match q, rest with
  | [], _ => true
  | p :: q', c :: rest' =>
      lit_match U icase p c && lit_prefix U icase q' rest'
  | _ :: _, [] => false
  end.

(** The pattern an escaped query compiles to. *)
Definition lit_pattern (q : str) : pattern :=
  {| p_re := literals q; p_groups := 0; p_icase := true |}.

(** [m1] lies entirely before [m2]. *)
Definition before (m1 m2 : rmatch) : Prop := m_end m1 <= m_start m2.

(** [m] is what the matcher reports at position [m_start m] of [text]. *)
Definition found_at (U : unicode_db) (p : pattern) (text : str) (m : rmatch)
    : Prop :=
  exists adv,
    match_at U p (skipn (m_start m) text) (m_start m) adv
    = Some (m_end m, m_caps m).

(** The match of the empty pattern at position [i]. *)
Definition empty_match (i : nat) : rmatch :=
  {| m_start := i; m_end := i; m_caps := [] |}.

(** Under IGNORECASE a whitespace character is matched by whitespace
    literals only: whitespace has no case variants. *)
Definition whitespace_uncased (U : unicode_db) : Prop :=
  forall p c,
    lit_match U true p c = true -> isspace c = true -> isspace p = true.

(** Every word of the pattern starts with a literal that is not
    whitespace. *)
Fixpoint nonblank_head (r : regex) : bool :=
  match r with
  | Chr (ALit p) => negb (isspace p)
  | Seq r1 _ => nonblank_head r1
  | Alt r1 r2 => nonblank_head r1 && nonblank_head r2
  | Group _ r1 => nonblank_head r1
  | _ => false
  end.

(** A pattern made of a first group holding keywords, followed by a
    tail without groups: the shape of the first three table entries. *)
Definition keyword_pattern (p : pattern) : bool :=
  match p_re p with
  | Seq (Group 1 kw) tail =>
      nonblank_head kw
      && negb (existsb (Nat.eqb 1) (groups_of tail))
      && Nat.eqb (p_groups p) 1
      && p_icase p
  | _ => false
  end.

(** ** Search *)

(** [q] occurs in [text] at position [i], compared as the matcher
    compares under IGNORECASE. *)
Definition occurs (U : unicode_db) (q text : str) (i : nat) : Prop :=
  lit_prefix U true q (skipn i text) = true.

(** The matches behind the rows of one page. *)
Definition page_matches (U : unicode_db) (query : str) (page_info : page)
    : list rmatch :=
  finditer U (lit_pattern query) (page_text page_info).

(** Case-insensitive comparison of two characters and containment of a
    needle, by lower case. *)
Definition ieq_char (U : unicode_db) (a b : char) : bool :=
  (tolower U a =? tolower U b)%N.

Fixpoint is_iprefix (U : unicode_db) (p s : str) : bool :=
  match p, s with
  | [], _ => true
  | a :: p', b :: s' => ieq_char U a b && is_iprefix U p' s'
  | _ :: _, [] => false
  end.

Fixpoint icontains (U : unicode_db) (hay needle : str) : bool :=
  is_iprefix U needle hay ||
  match hay with
  | [] => false
  | _ :: hay' => icontains U hay' needle
  end.

(** ** Analysis *)

(** The keys of the table, in insertion order. *)
Definition categories : list Category :=
  [Juzgado; Expediente; Secretaria; Demandante; Demandado].

Definition cat_index (k : Category) : nat :=
  match k with
  | Juzgado => 0
  | Expediente => 1
  | Secretaria => 2
  | Demandante => 3
  | Demandado => 4
  end.

Fixpoint table_lookup (k : Category) (table : list (Category * str))
    : option str :=
  match table with
  | [] => None
  | (k', s) :: table' =>
      if Category_eq_dec k k' then Some s else table_lookup k table'
  end.

(** The compiled pattern of each key: the parser run on the table. *)
Definition compiled (k : Category) : pattern :=
  Eval vm_compute in
    match table_lookup k patterns with
    | Some s =>
        match compile s true with
        | Some p => p
        | None => lit_pattern []
        end
    | None => lit_pattern []
    end.

(** The rows before deduplication: for each key in table order, one row
    per match in scan order. *)
Definition raw_rows (U : unicode_db) (text : str) : list row :=
  flat_map (fun k => map (row_of k) (findall U (compiled k) text)) categories.

(** Position of the first occurrence of a row. *)
Fixpoint first_index (x : row) (l : list row) : nat :=
  match l with
  | [] => 0
  | y :: l' => if row_eq_dec x y then 0 else S (first_index x l')
  end.

(** ** Inputs of the scenarios *)

(** Scenario A and scenario B of the specification. *)
Definition text_scenario_a : str := utf8 "Juzgado Primero Civil de Distrito".

Definition text_scenario_b : str :=
  utf8 "El Demandado: Juan Pérez López compareció".

(** A page with text [ab], and a two-page document. *)
Definition page_ab : page := {| page_number := 1; page_text := utf8 "ab" |}.

Definition doc_c8 : list str := [utf8 "xa.a.A.ay"; utf8 "a.a"].

(** A page whose text is [a], newline, [b]. *)
Definition page_a_nl_b : page :=
  {| page_number := 1; page_text := [97; 10; 98]%N |}.



(** ** Further vocabulary: search *)

(** [q] occurs on some page. *)
Definition occurs_somewhere (U : unicode_db) (q : str) (pages_text : list page)
    : Prop :=
  exists pg i, In pg pages_text /\ occurs U q (page_text pg) i.

(** Two pattern characters that IGNORECASE does not tell apart: the same
    character, or two cased characters with the same lower case. *)
Definition same_letter (U : unicode_db) (p p' : char) : Prop :=
  p = p'
  \/ (iscased U p = true /\ iscased U p' = true /\ tolower U p = tolower U p').

(** Under IGNORECASE the newline is matched by the newline only. *)
Definition newline_isolated (U : unicode_db) : Prop :=
  forall p, lit_match U true p LF = true -> p = LF.

(** The start and the end of a match. *)
Definition span (m : rmatch) : nat * nat := (m_start m, m_end m).

(** ** Further vocabulary: highlighting *)

(** What the template of the highlighting step expands to: the markup
    around a backslash and the digit 1. *)
Definition mark_text : str :=
  utf8 "<mark style='background-color:#00B4D8;color:black;'><b>\1</b></mark>".

(** The pattern of the highlighting step: the query in one group. *)
Definition group_pattern (q : str) : pattern :=
  {| p_re := Seq (Group 1 (literals q)) Eps; p_groups := 1; p_icase := true |}.

(** A match of the query with the mark of the group around it. *)
Definition with_group (m : rmatch) : rmatch :=
  {| m_start := m_start m; m_end := m_end m; m_caps := [(1, span m)] |}.

(** The highlighted context: every match of the query gives way to the
    same text. *)
Definition marked (U : unicode_db) (query contexto : str) : str :=
  sub_from contexto 0 (finditer U (lit_pattern query) contexto)
           (fun _ => mark_text).

(** A page whose text holds a keyword twice, in two cases. *)
Definition page_juzgado : page :=
  {| page_number := 1; page_text := utf8 "El JUZGADO y el juzgado" |}.

(** ** Further vocabulary: analysis *)

(** The first group of a pattern. *)
Definition keyword_of (p : pattern) : regex :=
  match p_re p with
  | Seq (Group 1 kw) _ => kw
  | _ => Eps
  end.

(** An upper bound on the length of the words of a pattern, when there
    is one. *)
Fixpoint max_width (r : regex) : option nat :=
  match r with
  | Eps => Some 0
  | Chr _ => Some 1
  | Rep _ max _ => max
  | Seq r1 r2 =>
      match max_width r1, max_width r2 with
      | Some a, Some b => Some (a + b)
      | _, _ => None
      end
  | Alt r1 r2 =>
      match max_width r1, max_width r2 with
      | Some a, Some b => Some (Nat.max a b)
      | _, _ => None
      end
  | Group _ r1 => max_width r1
  end.

(** Every word of the pattern ends with a literal that is not
    whitespace. *)
Fixpoint nonblank_last (r : regex) : bool :=
  match r with
  | Chr (ALit p) => negb (isspace p)
  | Seq r1 r2 =>
      match r2 with
      | Eps => nonblank_last r1
      | _ => nonblank_last r2
      end
  | Alt r1 r2 => nonblank_last r1 && nonblank_last r2
  | Group _ r1 => nonblank_last r1
  | _ => false
  end.

(** The class of the name group, [[A-ZÁÉÍÓÚÑa-z\s\.]]. *)
Definition name_class : atom :=
  AIn false
    [CRange 65 90; CLit 193; CLit 201; CLit 205; CLit 211; CLit 218;
     CLit 209; CRange 97 122; CCat CatSpace; CLit 46]%N.

(** A pattern made of a keyword group, a separator and a second group
    that repeats one class: the shape of the last two table entries. *)
Definition name_pattern (p : pattern) : option atom :=
  match p_re p with
  | Seq (Group 1 kw)
        (Seq (Rep _ _ _) (Seq (Group 2 (Seq (Rep _ _ a) Eps)) Eps)) =>
      if Nat.eqb (p_groups p) 2 && p_icase p then Some a else None
  | _ => None
  end.

(** The fewest characters a text needs for a row of each key. *)
Definition key_width (k : Category) : nat := min_width (p_re (compiled k)).

(* ================================================================== *)
(** * Facts about strings *)
(* ================================================================== *)

Section StrFacts.

Lemma lstrip_head (s : str) :
  lstrip s = [] \/ exists c t, lstrip s = c :: t /\ isspace c = false.
Proof.
  induction s as [|c s IH]; simpl; [now left|].
  destruct (isspace c) eqn:E; [exact IH|].
  right. now exists c, s.
Qed.

Lemma lstrip_nonspace (c : char) (t : str) :
  isspace c = false -> lstrip (c :: t) = c :: t.
Proof. intros H. simpl. now rewrite H. Qed.

Lemma lstrip_idem (s : str) : lstrip (lstrip s) = lstrip s.
Proof.
  destruct (lstrip_head s) as [E | (c & t & E & Hc)]; rewrite E; [reflexivity|].
  now apply lstrip_nonspace.
Qed.

(** [lstrip] keeps a last character that is not a space. *)
Lemma lstrip_snoc (s : str) (c : char) :
  isspace c = false -> exists u, lstrip (s ++ [c]) = u ++ [c].
Proof.
  intros Hc. induction s as [|a s IH]; simpl.
  - rewrite Hc. now exists [].
  - destruct (isspace a); [exact IH|]. now exists (a :: s).
Qed.

Lemma rstrip_head (c : char) (t : str) :
  isspace c = false -> exists u, rstrip (c :: t) = c :: u.
Proof.
  intros Hc. unfold rstrip. simpl.
  destruct (lstrip_snoc (rev t) c Hc) as [u Hu]. rewrite Hu.
  rewrite rev_app_distr. simpl. now exists (rev u).
Qed.

Lemma rstrip_idem (s : str) : rstrip (rstrip s) = rstrip s.
Proof. unfold rstrip. now rewrite rev_involutive, lstrip_idem. Qed.

(** A string that starts with a non-space character does not strip to
    the empty string. *)
Lemma strip_nonempty (c : char) (t : str) :
  isspace c = false -> strip (c :: t) <> [].
Proof.
  intros Hc. unfold strip. rewrite (lstrip_nonspace c t Hc).
  destruct (rstrip_head c t Hc) as [u Hu]. now rewrite Hu.
Qed.

Lemma lstrip_strip (s : str) : lstrip (strip s) = strip s.
Proof.
  unfold strip.
  destruct (lstrip_head s) as [E | (c & t & E & Hc)]; rewrite E.
  - reflexivity.
  - destruct (rstrip_head c t Hc) as [u Hu]. rewrite Hu.
    now apply lstrip_nonspace.
Qed.

Lemma strip_idem (s : str) : strip (strip s) = strip s.
Proof.
  unfold strip at 1. rewrite lstrip_strip. unfold strip.
  now rewrite rstrip_idem.
Qed.

(** What [strip] returns neither starts nor ends with whitespace. *)
Lemma strip_first (s : str) (c : char) (t : str) :
  strip s = c :: t -> isspace c = false.
Proof.
  intros E. pose proof (lstrip_strip s) as H. rewrite E in H.
  simpl in H. destruct (isspace c) eqn:Hc; [|reflexivity].
  exfalso. assert (L : length (lstrip t) <= length t).
  { clear. induction t as [|a t IH]; simpl; [lia|].
    destruct (isspace a); simpl; lia. }
  rewrite H in L. simpl in L. lia.
Qed.

Lemma strip_last (s : str) (t : str) (c : char) :
  strip s = t ++ [c] -> isspace c = false.
Proof.
  unfold strip, rstrip. intros E.
  apply (f_equal (@rev char)) in E.
  rewrite rev_involutive, rev_app_distr in E. simpl in E.
  destruct (lstrip_head (rev (lstrip s))) as [E' | (c' & t' & E' & Hc)];
    rewrite E' in E; congruence.
Qed.

Lemma replace1_length (a b : char) (s : str) :
  length (replace1 a b s) = length s.
Proof. apply length_map. Qed.

Lemma replace1_app (a b : char) (s t : str) :
  replace1 a b (s ++ t) = replace1 a b s ++ replace1 a b t.
Proof. apply map_app. Qed.

Lemma replace1_absent (a b : char) (s : str) :
  ~ In a s -> replace1 a b s = s.
Proof.
  induction s as [|c s IH]; simpl; intros H; [reflexivity|].
  destruct (N.eqb_spec c a) as [->|_]; [tauto|].
  f_equal. apply IH. tauto.
Qed.

(** A slice with bounds inside the string is the plain substring. *)
Lemma slice_inside (s : str) (i j : nat) :
  i <= j -> j <= length s ->
  slice s (Z.of_nat i) (Z.of_nat j) = substr s i j.
Proof.
  intros Hij Hj. unfold slice, substr, clamp_index.
  destruct (Z.ltb_spec (Z.of_nat i) 0); [lia|].
  destruct (Z.ltb_spec (Z.of_nat j) 0); [lia|].
  rewrite !Z.min_r, !Z.max_r by lia.
  f_equal; [|f_equal]; lia.
Qed.

Lemma substr_length (s : str) (i j : nat) :
  j <= length s -> length (substr s i j) = j - i.
Proof.
  intros Hj. unfold substr. rewrite length_firstn, length_skipn. lia.
Qed.

Lemma firstn_plus (A : Type) (n m : nat) (l : list A) :
  firstn (n + m) l = firstn n l ++ firstn m (skipn n l).
Proof.
  revert l. induction n as [|n IH]; intros l; simpl; [reflexivity|].
  destruct l as [|a l]; simpl.
  - now rewrite firstn_nil.
  - now rewrite IH.
Qed.

(** Widening a substring on both sides. *)
Lemma substr_split (s : str) (a i j b : nat) :
  a <= i -> i <= j -> j <= b -> b <= length s ->
  substr s a b = substr s a i ++ substr s i j ++ substr s j b.
Proof.
  intros Hai Hij Hjb Hb. unfold substr.
  replace (b - a) with ((i - a) + ((j - i) + (b - j))) by lia.
  rewrite !firstn_plus, !skipn_skipn.
  replace (i - a + a) with i by lia.
  replace (j - i + i) with j by lia.
  reflexivity.
Qed.

Lemma is_prefix_app (p s : str) : is_prefix p (p ++ s) = true.
Proof.
  induction p as [|a p IH]; simpl; [reflexivity|].
  now rewrite N.eqb_refl, IH.
Qed.

Lemma contains_prefix (hay needle : str) :
  is_prefix needle hay = true -> contains hay needle = true.
Proof. intros H. destruct hay; simpl; now rewrite H. Qed.

Lemma contains_middle (x n y : str) : contains (x ++ n ++ y) n = true.
Proof.
  induction x as [|a x IH]; simpl.
  - apply contains_prefix, is_prefix_app.
  - rewrite IH. apply orb_true_r.
Qed.

End StrFacts.

(* ================================================================== *)
(** * [re.escape] and the parser *)
(* ================================================================== *)

Section EscapeFacts.

Lemma special_chars_val :
  special_chars =
  [40; 41; 91; 93; 123; 125; 63; 42; 43; 45; 124; 94; 36; 92; 46; 38;
   126; 35; 32; 9; 10; 13; 11; 12]%N.
Proof. reflexivity. Qed.

(** Splits [is_special c = b] into one fact per special character. *)
Ltac split_special H :=
  unfold is_special in H; rewrite special_chars_val in H; simpl in H;
  repeat match type of H with
         | (_ || _)%bool = false => apply orb_false_iff in H; destruct H as [? H]
         | (_ || _)%bool = true => apply orb_true_iff in H; destruct H as [H | H]
         end.

(** An escaped special character is read back as that character. *)
Lemma parse_atom_special (c : char) (s : str) :
  is_special c = true ->
  parse_atom (BSL :: c :: s) = Some (ALit c, s).
Proof.
  intros H. split_special H;
    try discriminate H;
    apply N.eqb_eq in H; subst c; reflexivity.
Qed.

(** A character that is not special is read as itself, and is none of
    the characters the grammar reacts to. *)
Lemma parse_atom_plain (c : char) (s : str) :
  is_special c = false ->
  parse_atom (c :: s) = Some (ALit c, s)
  /\ is_quantifier c = false
  /\ (c =? BAR)%N = false /\ (c =? RPAR)%N = false /\ (c =? LPAR)%N = false.
Proof.
  intros H. split_special H.
  unfold parse_atom, is_quantifier.
  change BSL with 92%N. change LBR with 91%N. change DOT with 46%N.
  change LPAR with 40%N. change RPAR with 41%N. change BAR with 124%N.
  change STAR with 42%N. change PLUS with 43%N. change QM with 63%N.
  change LBRC with 123%N. change CARET with 94%N. change DOLLAR with 36%N.
  repeat match goal with E : (c =? _)%N = false |- _ => rewrite E; clear E end.
  simpl. repeat split; reflexivity.
Qed.

(** Whatever [escape] returns does not begin with a quantifier, a bar or
    a parenthesis. *)
Lemma escape_head (q : str) :
  starts_with_quantifier (escape q) = false
  /\ match escape q with
     | c :: _ => ((c =? BAR) || (c =? RPAR))%N = false /\ (c =? LPAR)%N = false
     | [] => True
     end.
Proof.
  destruct q as [|c q]; simpl; [auto|].
  destruct (is_special c) eqn:E; simpl.
  - repeat split; reflexivity.
  - destruct (parse_atom_plain c [] E) as (_ & Hq & Hb & Hr & Hl).
    rewrite Hq, Hb, Hr, Hl. auto.
Qed.

(** One item of an escaped query. *)
Lemma parse_item_escape (fuel : nat) (c : char) (q : str) (g : nat) :
  parse_item (S fuel) (escape (c :: q)) g = Some (Chr (ALit c), escape q, g).
Proof.
  assert (Q : forall a, parse_quantified a (escape q) = Some (Chr a, escape q)).
  { intros a. destruct (escape_head q) as [Hq _].
    unfold parse_quantified. destruct (escape q) as [|d s]; [reflexivity|].
    simpl in Hq. now rewrite Hq. }
  simpl escape. destruct (is_special c) eqn:E.
  - cbn [parse_item]. change (BSL =? LPAR)%N with false. cbv iota.
    rewrite (parse_atom_special c (escape q) E). now rewrite Q.
  - destruct (parse_atom_plain c (escape q) E) as (Ha & _ & _ & _ & Hl).
    cbn [parse_item]. rewrite Hl, Ha. now rewrite Q.
Qed.

Lemma parse_seq_escape (q : str) :
  forall fuel g, length q < fuel ->
  parse_seq fuel (escape q) g = Some (literals q, [], g).
Proof.
  induction q as [|c q IH]; intros fuel g Hf.
  - destruct fuel; [simpl in Hf; lia|]. reflexivity.
  - destruct fuel as [|fuel]; simpl in Hf; [lia|].
    destruct (escape_head (c :: q)) as [_ Hh].
    cbn [parse_seq]. destruct (escape (c :: q)) as [|d s] eqn:E.
    + simpl in E. destruct (is_special c); discriminate E.
    + destruct Hh as [Hh _]. rewrite Hh. rewrite <- E.
      destruct fuel as [|fuel]; [lia|].
      rewrite parse_item_escape. cbv beta iota.
      rewrite IH by lia. reflexivity.
Qed.

Lemma escape_length (q : str) : length q <= length (escape q).
Proof.
  induction q as [|c q IH]; simpl; [lia|].
  destruct (is_special c); simpl; lia.
Qed.

(** The escaped query parses to the sequence of its characters as
    literals, with no group: no character of the query is an operator. *)
Lemma parse_escape_literals (q : str) :
  parse (escape q) = Some (literals q, 0).
Proof.
  unfold parse. pose proof (escape_length q) as L.
  remember (3 * length (escape q) + 3) as fuel eqn:F.
  destruct fuel as [|fuel]; [lia|].
  cbn [parse_alt]. rewrite parse_seq_escape by lia. reflexivity.
Qed.

Lemma compile_escape (q : str) (icase : bool) :
  compile (escape q) icase =
  Some {| p_re := literals q; p_groups := 0; p_icase := icase |}.
Proof. unfold compile. now rewrite parse_escape_literals. Qed.

End EscapeFacts.

(* ================================================================== *)
(** * The matcher *)
(* ================================================================== *)

Section MatcherFacts.

Variable U : unicode_db.
Variable icase : bool.

Lemma lit_prefix_length (q rest : str) :
  lit_prefix U icase q rest = true -> length q <= length rest.
Proof.
  revert rest. induction q as [|p q IH]; intros [|c rest] H; simpl in *;
    try lia; try discriminate.
  apply andb_true_iff in H. destruct H as [_ H]. apply IH in H. lia.
Qed.

Lemma lit_prefix_Forall2 (q rest : str) :
  lit_prefix U icase q rest = true ->
  Forall2 (fun p c => lit_match U icase p c = true) q (firstn (length q) rest).
Proof.
  revert rest. induction q as [|p q IH]; intros [|c rest] H; simpl in *;
    try discriminate; try constructor.
  - now apply andb_true_iff in H.
  - apply IH. now apply andb_true_iff in H.
Qed.

(** Matching a sequence of literals is testing a prefix. *)
Lemma run_literals (q rest : str) (pos : nat) (caps : captures) (k : cont) :
  run U icase (literals q) rest pos caps k =
  if lit_prefix U icase q rest
  then k (skipn (length q) rest) (pos + length q) caps
  else None.
Proof.
  revert rest pos. induction q as [|p q IH]; intros rest pos; simpl.
  - now rewrite Nat.add_0_r.
  - destruct rest as [|c rest]; [reflexivity|].
    destruct (lit_match U icase p c); simpl; [|reflexivity].
    rewrite IH. now replace (S pos + length q) with (pos + S (length q)) by lia.
Qed.

(** A successful greedy repeat consumed some [n] matching characters,
    within its bounds, before the continuation succeeded. *)
Lemma rep_greedy_sound (a : atom) (min : nat) (max : option nat) (k : cont)
    (res : nat * captures) (caps : captures) :
  forall rest count pos,
  within max count ->
  rep_greedy U icase a min max count rest pos caps k = Some res ->
  exists n,
    n <= length rest
    /\ Forall (fun c => atom_match U icase a c = true) (firstn n rest)
    /\ min <= count + n /\ within max (count + n)
    /\ k (skipn n rest) (pos + n) caps = Some res.
Proof.
  assert (Stop : forall rest count pos,
    within max count ->
    (if min <=? count then k rest pos caps else None) = Some res ->
    exists n,
      n <= length rest
      /\ Forall (fun c => atom_match U icase a c = true) (firstn n rest)
      /\ min <= count + n /\ within max (count + n)
      /\ k (skipn n rest) (pos + n) caps = Some res).
  { intros rest count pos Hw H. destruct (Nat.leb_spec min count); [|discriminate].
    exists 0. simpl. rewrite !Nat.add_0_r. repeat split; auto; lia. }
  induction rest as [|c rest IH]; intros count pos Hw H; simpl in H.
  - now apply Stop.
  - destruct ((match max with Some m => count <? m | None => true end)
              && atom_match U icase a c) eqn:E; [|now apply Stop].
    apply andb_true_iff in E. destruct E as [Eroom Ec].
    destruct (rep_greedy U icase a min max (S count) rest (S pos) caps k)
      as [res'|] eqn:R; [|now apply Stop].
    injection H as ->.
    assert (Hw' : within max (S count)).
    { destruct max as [m|]; simpl in *; [|exact I].
      apply Nat.ltb_lt in Eroom. lia. }
    destruct (IH _ _ Hw' R) as (n & Hn & Hall & Hmin & Hmax & Hk).
    exists (S n). simpl.
    replace (count + S n) with (S count + n) by lia.
    replace (pos + S n) with (S pos + n) by lia.
    repeat split; auto; lia.
Qed.

(** Soundness of the matcher: when [run] succeeds, the pattern consumed
    a prefix of the text that belongs to its language, set marks for its
    own groups only, and the continuation succeeded on the rest. *)
Lemma run_sound (r : regex) :
  forall rest pos caps (k : cont) res,
  run U icase r rest pos caps k = Some res ->
  exists n caps',
    n <= length rest
    /\ lang U icase r (firstn n rest)
    /\ (forall g, ~ In g (groups_of r) -> lookup g caps' = lookup g caps)
    /\ k (skipn n rest) (pos + n) caps' = Some res.
Proof.
  induction r as [|a|min max a|r1 IH1 r2 IH2|r1 IH1 r2 IH2|g0 r1 IH1];
    intros rest pos caps k res H; simpl in H.
  - exists 0, caps. simpl. rewrite Nat.add_0_r. repeat split; auto; lia.
  - destruct rest as [|c rest]; [discriminate|].
    destruct (atom_match U icase a c) eqn:E; [|discriminate].
    exists 1, caps. simpl. replace (pos + 1) with (S pos) by lia.
    repeat split; auto; try lia. now exists c.
  - apply rep_greedy_sound in H; [|destruct max; simpl; [lia|exact I]].
    destruct H as (n & Hn & Hall & Hmin & Hmax & Hk).
    exists n, caps. simpl in *.
    rewrite length_firstn, Nat.min_l by lia.
    repeat split; auto.
  - apply IH1 in H. destruct H as (n1 & caps1 & Hn1 & L1 & G1 & H).
    apply IH2 in H. destruct H as (n2 & caps2 & Hn2 & L2 & G2 & H).
    rewrite length_skipn in Hn2.
    exists (n1 + n2), caps2. repeat split.
    + lia.
    + simpl. exists (firstn n1 rest), (firstn n2 (skipn n1 rest)).
      split; [apply firstn_plus|]. now split.
    + intros g Hg. simpl in Hg. rewrite in_app_iff in Hg.
      rewrite G2, G1; tauto.
    + rewrite skipn_skipn in H.
      now replace (n1 + n2) with (n2 + n1) by lia; rewrite Nat.add_assoc in *;
        replace (pos + n2 + n1) with (pos + n1 + n2) by lia.
  - destruct (run U icase r1 rest pos caps k) as [res'|] eqn:R.
    + injection H as ->. apply IH1 in R.
      destruct R as (n & caps' & Hn & L & G & Hk).
      exists n, caps'. repeat split; auto.
      * now left.
      * intros g Hg. apply G. simpl in Hg. rewrite in_app_iff in Hg. tauto.
    + apply IH2 in H. destruct H as (n & caps' & Hn & L & G & Hk).
      exists n, caps'. repeat split; auto.
      * now right.
      * intros g Hg. apply G. simpl in Hg. rewrite in_app_iff in Hg. tauto.
  - apply IH1 in H. destruct H as (n & caps' & Hn & L & G & Hk).
    exists n, ((g0, (pos, pos + n)) :: caps'). repeat split; auto.
    intros g Hg. simpl in Hg. simpl.
    destruct (Nat.eqb_spec g g0) as [->|Hne]; [tauto|].
    apply G. tauto.
Qed.

Lemma lang_min_width (r : regex) :
  forall w, lang U icase r w -> min_width r <= length w.
Proof.
  induction r as [|a|min max a|r1 IH1 r2 IH2|r1 IH1 r2 IH2|g0 r1 IH1];
    intros w L; simpl in *.
  - lia.
  - destruct L as (c & -> & _). simpl. lia.
  - tauto.
  - destruct L as (w1 & w2 & -> & L1 & L2). rewrite length_app.
    apply IH1 in L1. apply IH2 in L2. lia.
  - destruct L as [L|L]; [apply IH1 in L|apply IH2 in L]; lia.
  - now apply IH1.
Qed.

(** A match found at [pos] ends between [pos] and the end of the text,
    past [pos] when it must advance, and spans a word of the pattern. *)
Lemma match_at_sound (p : pattern) (rest : str) (pos : nat) (adv : bool)
    (e : nat) (caps : captures) :
  match_at U p rest pos adv = Some (e, caps) ->
  p_icase p = icase ->
  pos <= e /\ e <= pos + length rest
  /\ (adv = true -> pos < e)
  /\ lang U icase (p_re p) (firstn (e - pos) rest).
Proof.
  unfold match_at. intros H Hic. rewrite Hic in H. apply run_sound in H.
  destruct H as (n & caps' & Hn & L & _ & Hk).
  unfold accept in Hk.
  destruct (adv && Nat.eqb (pos + n) pos) eqn:E; [discriminate|].
  injection Hk as <- <-.
  replace (pos + n - pos) with n by lia.
  repeat split; auto; try lia.
  intros ->. simpl in E. apply Nat.eqb_neq in E. lia.
Qed.

End MatcherFacts.

(* ================================================================== *)
(** * The scanner *)
(* ================================================================== *)

Section ScanFacts.

Variable U : unicode_db.

Lemma skipn_step (A : Type) (n : nat) (l : list A) (c : A) (t : list A) :
  skipn n l = c :: t -> skipn (S n) l = t.
Proof.
  intros H. change (S n) with (1 + n). rewrite <- skipn_skipn, H. reflexivity.
Qed.

Lemma skipn_nonempty (A : Type) (n : nat) (l : list A) (c : A) (t : list A) :
  skipn n l = c :: t -> n < length l.
Proof.
  intros H. apply (f_equal (@length A)) in H.
  rewrite length_skipn in H. simpl in H. lia.
Qed.

(** Every match the scanner reports was found by the matcher at its
    start, lies inside the text at or after the scan position, and the
    matches come one entirely before the next. *)
Lemma scan_sound (p : pattern) (text : str) :
  forall fuel rest pos adv,
  rest = skipn pos text -> pos <= length text ->
  Forall (fun m => pos <= m_start m /\ m_start m <= m_end m
                   /\ m_end m <= length text /\ found_at U p text m)
         (scan U fuel p rest pos adv)
  /\ StronglySorted before (scan U fuel p rest pos adv).
Proof.
  induction fuel as [|fuel IH]; intros rest pos adv Hrest Hpos; simpl.
  - split; constructor.
  - destruct (match_at U p rest pos adv) as [[e caps]|] eqn:M.
    + destruct (match_at_sound U (p_icase p) p rest pos adv e caps M eq_refl)
        as (H1 & H2 & _ & _).
      assert (Hlen : length rest = length text - pos)
        by (rewrite Hrest; apply length_skipn).
      assert (Hrest' : skipn (e - pos) rest = skipn e text).
      { rewrite Hrest, skipn_skipn. f_equal. lia. }
      destruct (IH _ e (Nat.eqb e pos) Hrest' ltac:(lia)) as [F S].
      split.
      * constructor.
        -- simpl. repeat split; try lia. exists adv. simpl. now rewrite <- Hrest.
        -- eapply Forall_impl; [|exact F]. simpl. intros m Hm.
           repeat split; try tauto; lia.
      * constructor; [exact S|].
        eapply Forall_impl; [|exact F]. unfold before. simpl. intros m Hm. tauto.
    + destruct rest as [|c rest']; [split; constructor|].
      symmetry in Hrest.
      pose proof (skipn_nonempty _ _ _ _ _ Hrest) as Hlt.
      apply skipn_step in Hrest. symmetry in Hrest.
      destruct (IH rest' (S pos) false Hrest ltac:(lia)) as [F S].
      split; [|exact S].
      eapply Forall_impl; [|exact F]. simpl. intros m Hm.
      repeat split; try tauto; lia.
Qed.

Lemma finditer_sound (p : pattern) (text : str) :
  Forall (fun m => m_start m <= m_end m /\ m_end m <= length text
                   /\ found_at U p text m)
         (finditer U p text)
  /\ StronglySorted before (finditer U p text).
Proof.
  unfold finditer.
  destruct (scan_sound p text (2 * length text + 2) text 0 false eq_refl
              ltac:(lia)) as [F S].
  split; [|exact S].
  eapply Forall_impl; [|exact F]. simpl. tauto.
Qed.

(** A pattern without empty words has no empty match. *)
Lemma found_at_nonempty (p : pattern) (text : str) (m : rmatch) :
  0 < min_width (p_re p) -> found_at U p text m -> m_start m < m_end m.
Proof.
  intros W [adv F].
  destruct (match_at_sound U (p_icase p) p _ _ _ _ _ F eq_refl)
    as (H1 & _ & _ & L).
  apply lang_min_width in L. rewrite length_firstn in L. lia.
Qed.

Lemma scan_step (fuel : nat) (p : pattern) (rest : str) (pos : nat)
    (adv : bool) :
  scan U (S fuel) p rest pos adv =
  match match_at U p rest pos adv with
  | Some (e, caps) =>
      {| m_start := pos; m_end := e; m_caps := caps |}
        :: scan U fuel p (skipn (e - pos) rest) e (Nat.eqb e pos)
  | None =>
      match rest with
      | [] => []
      | _ :: rest' => scan U fuel p rest' (S pos) false
      end
  end.
Proof. reflexivity. Qed.

(** The scanner needs at most two steps per position: with that much
    fuel, more fuel changes nothing. *)
Lemma scan_enough_fuel (p : pattern) :
  forall (fuel : nat) (rest : str) (pos : nat) (adv : bool),
  2 * length rest + (if adv then 1 else 2) <= fuel ->
  scan U (S fuel) p rest pos adv = scan U fuel p rest pos adv.
Proof.
  induction fuel as [|fuel IH]; intros rest pos adv Hf;
    [destruct adv; lia|].
  rewrite (scan_step (S fuel)), (scan_step fuel).
  destruct (match_at U p rest pos adv) as [[e caps]|] eqn:M.
  - destruct (match_at_sound U (p_icase p) p rest pos adv e caps M eq_refl)
      as (H1 & H2 & H3 & _).
    f_equal. apply IH. rewrite length_skipn.
    destruct (Nat.eqb_spec e pos) as [->|Hne].
    + destruct adv; [specialize (H3 eq_refl)|]; lia.
    + destruct adv; lia.
  - destruct rest as [|c rest']; [reflexivity|].
    apply IH. simpl in Hf. destruct adv; lia.
Qed.

Lemma finditer_enough_fuel (p : pattern) (text : str) (extra : nat) :
  scan U (2 * length text + 2 + extra) p text 0 false = finditer U p text.
Proof.
  unfold finditer. induction extra as [|extra IH].
  - now rewrite Nat.add_0_r.
  - rewrite Nat.add_succ_r, scan_enough_fuel; [exact IH|lia].
Qed.

(** ** A literal pattern *)

Lemma match_at_literals (q rest : str) (pos : nat) (adv : bool) :
  match_at U (lit_pattern q) rest pos adv =
  if lit_prefix U true q rest
  then accept adv pos (skipn (length q) rest) (pos + length q) []
  else None.
Proof. unfold match_at. simpl. apply run_literals. Qed.

(** A match of a literal pattern spans an occurrence of the query. *)
Lemma found_at_literals (q text : str) (m : rmatch) :
  found_at U (lit_pattern q) text m ->
  m_end m = m_start m + length q /\ m_caps m = []
  /\ lit_prefix U true q (skipn (m_start m) text) = true.
Proof.
  intros [adv H]. rewrite match_at_literals in H.
  destruct (lit_prefix U true q (skipn (m_start m) text)); [|discriminate].
  unfold accept in H.
  destruct (adv && Nat.eqb (m_start m + length q) (m_start m)); [discriminate|].
  injection H as <- <-. auto.
Qed.

(** With a non-empty query the scan is complete: an occurrence at or
    after the scan position is a match or overlaps one that started no
    later. *)
Lemma scan_literals_complete (q text : str) :
  q <> [] ->
  forall fuel rest pos adv,
  rest = skipn pos text -> length rest < fuel ->
  forall i, pos <= i -> lit_prefix U true q (skipn i text) = true ->
  exists m, In m (scan U fuel (lit_pattern q) rest pos adv)
            /\ m_start m <= i < m_end m.
Proof.
  intros Hq. assert (Lq : 0 < length q) by (destruct q; simpl; [congruence|lia]).
  induction fuel as [|fuel IH]; intros rest pos adv Hrest Hf i Hi Hocc;
    [lia|].
  simpl. rewrite match_at_literals.
  destruct (lit_prefix U true q rest) eqn:P.
  - unfold accept.
    assert (Hneq : Nat.eqb (pos + length q) pos = false)
      by (apply Nat.eqb_neq; lia).
    rewrite Hneq, andb_false_r. cbv iota. rewrite Hneq.
    destruct (Nat.lt_ge_cases i (pos + length q)) as [Hin | Hout].
    + eexists. split; [left; reflexivity|]. simpl. lia.
    + pose proof (lit_prefix_length U true q rest P) as Lp.
      assert (Hrest' : skipn (pos + length q - pos) rest
                       = skipn (pos + length q) text).
      { rewrite Hrest, skipn_skipn. f_equal. lia. }
      destruct (IH _ (pos + length q) false Hrest') with (i := i)
        as (m & Hm & Hr); auto.
      * rewrite length_skipn. lia.
      * exists m. split; [right; exact Hm|exact Hr].
  - destruct rest as [|c rest'].
    + exfalso. symmetry in Hrest.
      assert (E : skipn i text = []).
      { apply skipn_all2. apply (f_equal (@length char)) in Hrest.
        rewrite length_skipn in Hrest. simpl in Hrest. lia. }
      rewrite E in Hocc. destruct q; [congruence|discriminate].
    + assert (Hne : i <> pos) by (intros ->; congruence).
      symmetry in Hrest. apply skipn_step in Hrest. symmetry in Hrest.
      destruct (IH rest' (S pos) false Hrest) with (i := i)
        as (m & Hm & Hr); auto.
      * simpl in Hf. lia.
      * lia.
      * now exists m.
Qed.

Lemma finditer_literals_complete (q text : str) (i : nat) :
  q <> [] -> lit_prefix U true q (skipn i text) = true ->
  exists m, In m (finditer U (lit_pattern q) text) /\ m_start m <= i < m_end m.
Proof.
  intros Hq Hocc. unfold finditer.
  apply scan_literals_complete with (text := text); auto; lia.
Qed.

(** ** The empty pattern

    It matches at every position, the end of the text included: after
    each empty match the scanner must advance, finds nothing longer, and
    moves on by one character. *)
Lemma scan_empty_step (rest : str) (pos fuel : nat) :
  scan U (S (S fuel)) (lit_pattern []) rest pos false
  = empty_match pos
      :: match rest with
         | [] => []
         | _ :: rest' => scan U fuel (lit_pattern []) rest' (S pos) false
         end.
Proof.
  assert (M : forall adv, match_at U (lit_pattern []) rest pos adv
                          = if adv then None else Some (pos, [])).
  { intros adv. rewrite match_at_literals. simpl. unfold accept.
    rewrite Nat.add_0_r, Nat.eqb_refl. now destruct adv. }
  change (scan U (S (S fuel)) (lit_pattern []) rest pos false)
    with (match match_at U (lit_pattern []) rest pos false with
          | Some (e, caps) =>
              {| m_start := pos; m_end := e; m_caps := caps |}
                :: scan U (S fuel) (lit_pattern []) (skipn (e - pos) rest) e
                     (Nat.eqb e pos)
          | None =>
              match rest with
              | [] => []
              | _ :: rest' => scan U (S fuel) (lit_pattern []) rest' (S pos) false
              end
          end).
  rewrite M. rewrite Nat.sub_diag, Nat.eqb_refl. simpl skipn.
  change (scan U (S fuel) (lit_pattern []) rest pos true)
    with (match match_at U (lit_pattern []) rest pos true with
          | Some (e, caps) =>
              {| m_start := pos; m_end := e; m_caps := caps |}
                :: scan U fuel (lit_pattern []) (skipn (e - pos) rest) e
                     (Nat.eqb e pos)
          | None =>
              match rest with
              | [] => []
              | _ :: rest' => scan U fuel (lit_pattern []) rest' (S pos) false
              end
          end).
  rewrite M. reflexivity.
Qed.

Lemma scan_empty :
  forall rest pos fuel,
  2 * length rest + 2 <= fuel ->
  scan U fuel (lit_pattern []) rest pos false
  = map empty_match (seq pos (S (length rest))).
Proof.
  induction rest as [|c rest IH]; intros pos fuel Hf;
    destruct fuel as [|[|fuel]]; simpl in Hf; try lia;
    rewrite scan_empty_step.
  - reflexivity.
  - rewrite IH by lia. reflexivity.
Qed.

Lemma finditer_empty (text : str) :
  finditer U (lit_pattern []) text = map empty_match (seq 0 (S (length text))).
Proof. unfold finditer. apply scan_empty. lia. Qed.

End ScanFacts.

(* ================================================================== *)
(** * [search_in_pdf] *)
(* ================================================================== *)

Section SearchFacts.

Variable U : unicode_db.

(** The search never fails: the escaped query always compiles, and the
    result has one row per match, page by page. *)
Lemma search_in_pdf_rows (pages_text : list page) (query : str) :
  search_in_pdf U pages_text query =
  Some (flat_map (fun page_info =>
                    map (hit_of page_info) (page_matches U query page_info))
                 pages_text).
Proof. unfold search_in_pdf. rewrite compile_escape. reflexivity. Qed.

Lemma page_matches_sound (query : str) (page_info : page) (m : rmatch) :
  In m (page_matches U query page_info) ->
  m_start m <= m_end m /\ m_end m <= length (page_text page_info)
  /\ m_end m = m_start m + length query
  /\ occurs U query (page_text page_info) (m_start m).
Proof.
  intros Hm.
  destruct (finditer_sound U (lit_pattern query) (page_text page_info))
    as [F _].
  rewrite Forall_forall in F. destruct (F m Hm) as (H1 & H2 & H3).
  apply found_at_literals in H3. destruct H3 as (H3 & _ & H4).
  repeat split; auto.
Qed.

(** The context of a row is the window of the page around the match,
    with newlines turned into spaces. *)
Lemma hit_window (page_info : page) (m : rmatch) :
  m_start m <= m_end m -> m_end m <= length (page_text page_info) ->
  Contexto (hit_of page_info m) =
  replace1 LF SP
    (substr (page_text page_info) (m_start m - 100)
            (Nat.min (length (page_text page_info)) (m_end m + 100))).
Proof.
  intros H1 H2. unfold hit_of. simpl. f_equal.
  replace (Z.max 0 (Z.of_nat (m_start m) - 100))
    with (Z.of_nat (m_start m - 100)) by lia.
  replace (Z.min (Z.of_nat (length (page_text page_info)))
                 (Z.of_nat (m_end m) + 100))
    with (Z.of_nat (Nat.min (length (page_text page_info)) (m_end m + 100)))
    by lia.
  apply slice_inside; lia.
Qed.

(** The window holds the matched text between what precedes and what
    follows it. *)
Lemma hit_window_split (page_info : page) (m : rmatch) :
  m_start m <= m_end m -> m_end m <= length (page_text page_info) ->
  exists l r,
    Contexto (hit_of page_info m) =
    replace1 LF SP l
      ++ replace1 LF SP (Coincidencia (hit_of page_info m))
      ++ replace1 LF SP r.
Proof.
  intros H1 H2. rewrite hit_window by assumption.
  rewrite (substr_split (page_text page_info) (m_start m - 100)
             (m_start m) (m_end m)) by lia.
  rewrite !replace1_app. eauto.
Qed.

Lemma is_iprefix_of_prefix (p s : str) :
  is_prefix p s = true -> is_iprefix U p s = true.
Proof.
  revert s. induction p as [|a p IH]; intros [|b s] H; simpl in *;
    try discriminate; auto.
  apply andb_true_iff in H. destruct H as [E H].
  apply N.eqb_eq in E. subst b. unfold ieq_char.
  now rewrite N.eqb_refl, IH.
Qed.

Lemma icontains_of_contains (hay needle : str) :
  contains hay needle = true -> icontains U hay needle = true.
Proof.
  induction hay as [|a hay IH]; simpl; intros H.
  - rewrite orb_false_r in *. now apply is_iprefix_of_prefix.
  - apply orb_true_iff in H. destruct H as [H|H].
    + now rewrite is_iprefix_of_prefix.
    + rewrite IH by assumption. apply orb_true_r.
Qed.

(** Page numbers of the rows: each page number, once per match. *)
Lemma search_pages_sorted (query : str) (pages_text : list page) :
  StronglySorted Z.le (map page_number pages_text) ->
  StronglySorted Z.le
    (map Pagina
       (flat_map (fun page_info =>
                    map (hit_of page_info) (page_matches U query page_info))
                 pages_text)).
Proof.
  induction pages_text as [|pg pages IH]; simpl; intros S; [constructor|].
  apply StronglySorted_inv in S. destruct S as [S F].
  rewrite map_app, map_map. simpl.
  induction (page_matches U query pg) as [|m ms IHm]; simpl; [now apply IH|].
  constructor; [exact IHm|].
  apply Forall_app. split.
  - apply Forall_forall. intros x Hx. apply in_map_iff in Hx.
    destruct Hx as (m' & <- & _). lia.
  - apply Forall_forall. intros x Hx. apply in_map_iff in Hx.
    destruct Hx as (h & <- & Hh). apply in_flat_map in Hh.
    destruct Hh as (pg' & Hpg' & Hh). apply in_map_iff in Hh.
    destruct Hh as (m' & <- & _). simpl.
    rewrite Forall_forall in F. apply F. now apply in_map.
Qed.

(** The rows follow the page sequence: each page number, once per match
    of the page. *)
Lemma search_pages (query : str) (pages_text : list page) :
  map Pagina
    (flat_map (fun page_info =>
                 map (hit_of page_info) (page_matches U query page_info))
              pages_text)
  = flat_map (fun page_info =>
                repeat (page_number page_info)
                       (length (page_matches U query page_info)))
             pages_text.
Proof.
  induction pages_text as [|pg pages IH]; simpl; [reflexivity|].
  rewrite map_app, IH. f_equal. rewrite map_map. simpl.
  induction (page_matches U query pg) as [|m ms IHm]; simpl; congruence.
Qed.

(** The page sequence of a document is numbered upwards. *)
Lemma enumerate_from_sorted (doc : list str) :
  forall i,
  Forall (fun pg => (i < page_number pg)%Z) (enumerate_from i doc)
  /\ StronglySorted Z.le (map page_number (enumerate_from i doc)).
Proof.
  induction doc as [|text doc IH]; intros i; simpl.
  - split; constructor.
  - destruct (IH (i + 1)%Z) as [F S]. split.
    + constructor; [simpl; lia|].
      eapply Forall_impl; [|exact F]. simpl. intros pg H. lia.
    + constructor; [exact S|].
      apply Forall_forall. intros x Hx. apply in_map_iff in Hx.
      destruct Hx as (pg & <- & Hpg). rewrite Forall_forall in F.
      specialize (F pg Hpg). lia.
Qed.

Lemma extract_sorted (doc : list str) :
  StronglySorted Z.le (map page_number (extract_text_with_pages doc)).
Proof. apply enumerate_from_sorted. Qed.

End SearchFacts.

(* ================================================================== *)
(** * Theorems about [search_in_pdf] *)
(* ================================================================== *)

(** C3, as stated, fails: on a one-page document with text [ab] the
    empty query does not return zero hits. *)
Lemma C3_empty_query_counterexample :
  search_in_pdf latin1 [page_ab] [] <> Some [].
Proof. vm_compute. discriminate. Qed.

(** C3 (amended): for every page sequence, a search with the empty query
    does not fail and returns, page after page, one hit for every
    position of the page, the end of the page included: the hit carries
    the number of the page, the empty matched text and the window of the
    page around the position, newlines turned into spaces.  So there are
    as many hits as the pages have characters, plus one per page (three
    on a page with text [ab]), and zero hits only for the empty page
    sequence.  The caller in [main] runs no search for an empty query. *)
Theorem C3_empty_query (U : unicode_db) (pages_text : list page) :
  exists hits,
    search_in_pdf U pages_text [] = Some hits
    /\ hits
       = flat_map
           (fun pg =>
              map (fun i =>
                     {| Pagina := page_number pg;
                        Coincidencia := [];
                        Contexto :=
                          map (fun c => if (c =? 10)%N then 32%N else c)
                              (firstn
                                 (Nat.min (length (page_text pg)) (i + 100)
                                  - (i - 100))
                                 (skipn (i - 100) (page_text pg))) |})
                  (seq 0 (S (length (page_text pg)))))
           pages_text
    /\ search_in_pdf latin1 [page_ab] []
       = Some [ {| Pagina := 1; Coincidencia := []; Contexto := utf8 "ab" |};
                {| Pagina := 1; Coincidencia := []; Contexto := utf8 "ab" |};
                {| Pagina := 1; Coincidencia := []; Contexto := utf8 "ab" |} ]
    /\ length hits
       = list_sum (map (fun pg => S (length (page_text pg))) pages_text)
    /\ Forall (fun h => Coincidencia h = []) hits
    /\ (hits = [] <-> pages_text = [])
    /\ main_search U pages_text [] = None.
Proof.
  eexists. split; [apply search_in_pdf_rows|].
  assert (L : forall pg : page,
             length (map (hit_of pg) (page_matches U [] pg))
             = S (length (page_text pg))).
  { intros pg. unfold page_matches. rewrite finditer_empty.
    now rewrite !length_map, length_seq. }
  split; [|split; [vm_compute; reflexivity|]].
  { apply flat_map_ext. intros pg. unfold page_matches.
    rewrite finditer_empty, map_map. apply map_ext_in. intros i Hi.
    apply in_seq in Hi.
    assert (W : Contexto (hit_of pg (empty_match i))
                = replace1 LF SP
                    (substr (page_text pg) (i - 100)
                            (Nat.min (length (page_text pg)) (i + 100))))
      by (apply hit_window; simpl; lia).
    unfold hit_of in *. simpl in W. simpl. rewrite W.
    unfold group0, substr. simpl. rewrite Nat.sub_diag. reflexivity. }
  repeat split.
  - rewrite length_flat_map. f_equal. apply map_ext. exact L.
  - apply Forall_forall. intros h Hh. apply in_flat_map in Hh.
    destruct Hh as (pg & _ & Hh). apply in_map_iff in Hh.
    destruct Hh as (m & <- & Hm). unfold page_matches in Hm.
    rewrite finditer_empty in Hm. apply in_map_iff in Hm.
    destruct Hm as (i & <- & _). unfold hit_of, group0, substr. simpl.
    now rewrite Nat.sub_diag.
  - destruct pages_text as [|pg pages]; [reflexivity|].
    simpl. intros E. apply (f_equal (@length hit)) in E.
    rewrite length_app, L in E. discriminate E.
  - intros ->. reflexivity.
Qed.

(** C5: for every page sequence and query the search returns one hit per
    match; the context of the hit is the slice of the page text from
    [max(0, start - 100)] to [min(len, end + 100)] with each newline
    replaced by a space: character by character it is that part of the
    page, with code point 32 wherever the page has code point 10, and no
    code point 10 is left in it.  Hence the context is at most 200
    characters longer than the matched text, and for a match at position
    0 it is a prefix of the (newline-free) page text: it starts at index
    0.  On the page [a], newline, [b] the query [b] gives the context
    [a b]. *)
Theorem C5_context_window (U : unicode_db) (pages_text : list page)
    (query : str) :
  exists hits,
    search_in_pdf U pages_text query = Some hits
    /\ hits = flat_map (fun pg => map (hit_of pg) (page_matches U query pg))
                       pages_text
    /\ search_in_pdf latin1 [page_a_nl_b] [98%N]
       = Some [ {| Pagina := 1; Coincidencia := [98%N];
                   Contexto := [97; 32; 98]%N |} ]
    /\ forall pg m,
         In pg pages_text -> In m (page_matches U query pg) ->
         let text := page_text pg in
         let h := hit_of pg m in
         Coincidencia h = substr text (m_start m) (m_end m)
         /\ Contexto h
            = replace1 LF SP
                (slice text
                   (Z.max 0 (Z.of_nat (m_start m) - 100))
                   (Z.min (Z.of_nat (length text)) (Z.of_nat (m_end m) + 100)))
         /\ length (Contexto h) <= length (Coincidencia h) + 200
         /\ (m_start m = 0 ->
             Contexto h
             = replace1 LF SP
                 (firstn (Nat.min (length text) (m_end m + 100)) text))
         /\ Pagina h = page_number pg
         /\ Coincidencia h
            = firstn (m_end m - m_start m) (skipn (m_start m) text)
         /\ Contexto h
            = map (fun c => if (c =? 10)%N then 32%N else c)
                  (firstn
                     (Nat.min (length text) (m_end m + 100)
                      - (m_start m - 100))
                     (skipn (m_start m - 100) text))
         /\ ~ In 10%N (Contexto h)
         /\ (m_start m = 0 ->
             Contexto h
             = map (fun c => if (c =? 10)%N then 32%N else c)
                   (firstn (Nat.min (length text) (m_end m + 100)) text)).
Proof.
  eexists. split; [apply search_in_pdf_rows|]. split; [reflexivity|].
  split; [vm_compute; reflexivity|].
  intros pg m _ Hm text h.
  destruct (page_matches_sound U query pg m Hm) as (H1 & H2 & _ & _).
  assert (W : Contexto h
              = map (fun c => if (c =? 10)%N then 32%N else c)
                    (firstn
                       (Nat.min (length text) (m_end m + 100)
                        - (m_start m - 100))
                       (skipn (m_start m - 100) text))).
  { subst h text. rewrite hit_window by assumption. reflexivity. }
  split; [reflexivity|]. split; [reflexivity|]. split; [|split].
  - subst h. rewrite hit_window by assumption.
    rewrite replace1_length. unfold hit_of, group0. simpl.
    rewrite !substr_length by lia. lia.
  - intros H0. subst h. rewrite hit_window by assumption.
    unfold substr. rewrite H0. simpl. now rewrite Nat.sub_0_r.
  - split; [reflexivity|]. split; [reflexivity|]. split; [exact W|].
    split.
    + rewrite W. intros Hin. apply in_map_iff in Hin.
      destruct Hin as (c & E & _).
      destruct (c =? 10)%N eqn:Ec; [discriminate E|].
      rewrite E in Ec. discriminate Ec.
    + intros H0. rewrite W, H0. simpl. now rewrite Nat.sub_0_r.
Qed.

(** C6, as stated, fails: searching [a], newline, [b] in a page with that
    text gives a hit whose context, [a b], does not contain the matched
    text, even compared case-insensitively. *)
Lemma C6_newline_counterexample :
  exists hits h,
    search_in_pdf latin1 [page_a_nl_b] [97; 10; 98]%N = Some hits
    /\ In h hits
    /\ icontains latin1 (Contexto h) (Coincidencia h) = false.
Proof.
  eexists. eexists. split; [vm_compute; reflexivity|].
  split; [left; reflexivity|]. vm_compute. reflexivity.
Qed.

(** C6 (amended): for every page sequence and query, the context of
    every hit contains the matched text with each newline replaced by a
    space; when the matched text has no newline, the context contains the
    matched text itself, exactly and therefore case-insensitively. *)
Theorem C6_context_contains_match (U : unicode_db) (pages_text : list page)
    (query : str) :
  exists hits,
    search_in_pdf U pages_text query = Some hits
    /\ forall h, In h hits ->
         contains (Contexto h) (replace1 LF SP (Coincidencia h)) = true
         /\ (~ In LF (Coincidencia h) ->
             contains (Contexto h) (Coincidencia h) = true
             /\ icontains U (Contexto h) (Coincidencia h) = true).
Proof.
  eexists. split; [apply search_in_pdf_rows|].
  intros h Hh. apply in_flat_map in Hh. destruct Hh as (pg & _ & Hh).
  apply in_map_iff in Hh. destruct Hh as (m & <- & Hm).
  destruct (page_matches_sound U query pg m Hm) as (H1 & H2 & _ & _).
  destruct (hit_window_split pg m H1 H2) as (l & r & E).
  assert (C : contains (Contexto (hit_of pg m))
                (replace1 LF SP (Coincidencia (hit_of pg m))) = true).
  { rewrite E. apply contains_middle. }
  split; [exact C|]. intros Hnl.
  rewrite (replace1_absent LF SP _ Hnl) in C.
  split; [exact C|]. now apply icontains_of_contains.
Qed.

(** C8: for every page sequence and non-empty query, the hits are the
    matches of each page, page after page in the order of the page
    sequence.  On each page every match is an occurrence of the query;
    each match ends before the next begins; and no occurrence is skipped:
    every occurrence is a match or overlaps a match that starts no later.
    When the pages come in ascending page number, as the extractor
    numbers them, so do the hits. *)
Theorem C8_scan_order (U : unicode_db) (pages_text : list page) (query : str) :
  query <> [] ->
  exists hits,
    search_in_pdf U pages_text query = Some hits
    /\ hits = flat_map (fun pg => map (hit_of pg) (page_matches U query pg))
                       pages_text
    /\ (forall pg, In pg pages_text ->
          let ms := page_matches U query pg in
          Forall (fun m => occurs U query (page_text pg) (m_start m)
                           /\ m_end m = m_start m + length query) ms
          /\ StronglySorted before ms
          /\ forall i, occurs U query (page_text pg) i ->
               exists m, In m ms /\ m_start m <= i < m_end m)
    /\ map Pagina hits
       = flat_map (fun pg => repeat (page_number pg)
                                    (length (page_matches U query pg)))
                  pages_text
    /\ (StronglySorted Z.le (map page_number pages_text) ->
        StronglySorted Z.le (map Pagina hits)).
Proof.
  intros Hq. eexists. split; [apply search_in_pdf_rows|].
  split; [reflexivity|]. split; [|split].
  - intros pg _ ms. repeat split.
    + apply Forall_forall. intros m Hm.
      destruct (page_matches_sound U query pg m Hm) as (_ & _ & H3 & H4).
      now split.
    + apply finditer_sound.
    + intros i Hi. now apply finditer_literals_complete.
  - apply search_pages.
  - apply search_pages_sorted.
Qed.

(** C8 at a two-page document: three hits, on pages 1, 1 and 2. *)
Lemma C8_scan_order_witness :
  utf8 "a.a" <> []
  /\ exists hits,
       search_in_pdf latin1 (extract_text_with_pages doc_c8) (utf8 "a.a")
       = Some hits
       /\ map Coincidencia hits = [utf8 "a.a"; utf8 "A.a"; utf8 "a.a"]
       /\ StronglySorted Z.le (map Pagina hits).
Proof.
  assert (Hq : utf8 "a.a" <> []) by discriminate.
  split; [exact Hq|].
  destruct (C8_scan_order latin1 (extract_text_with_pages doc_c8)
              (utf8 "a.a") Hq) as (hits & E & _ & _ & _ & S).
  exists hits. split; [exact E|]. split.
  - vm_compute in E. injection E as <-. reflexivity.
  - apply S, extract_sorted.
Defined.


(* ================================================================== *)
(** * [analyze_legal_data] *)
(* ================================================================== *)

Section AnalyzeFacts.

Variable U : unicode_db.

Lemma compile_table :
  map (fun e => (fst e, compile (snd e) true)) patterns
  = map (fun k => (k, Some (compiled k))) categories.
Proof. vm_compute. reflexivity. Qed.

Lemma collect_compiled (text : str) :
  forall table ks,
  map (fun e => (fst e, compile (snd e) true)) table
  = map (fun k => (k, Some (compiled k))) ks ->
  collect U table text
  = Some (flat_map (fun k => map (row_of k) (findall U (compiled k) text)) ks).
Proof.
  induction table as [|[k s] table IH]; intros [|k' ks] E; simpl in E;
    try discriminate; [reflexivity|].
  injection E as -> Ec E. simpl. unfold re_findall. rewrite Ec.
  now rewrite (IH ks E).
Qed.

(** The analysis never fails: every pattern of the table compiles. *)
Lemma analyze_rows (text : str) :
  analyze_legal_data U text = Some (drop_duplicates (raw_rows U text)).
Proof.
  unfold analyze_legal_data.
  now rewrite (collect_compiled text patterns categories compile_table).
Qed.

(** ** [drop_duplicates] *)

Lemma drop_duplicates_from_In (x : row) :
  forall rows seen,
  In x (drop_duplicates_from seen rows) <-> In x rows /\ ~ In x seen.
Proof.
  induction rows as [|r rows IH]; intros seen; simpl; [tauto|].
  destruct (in_dec row_eq_dec r seen) as [Hin|Hout].
  - rewrite IH. split; [tauto|]. intros [[->|H] Hs]; tauto.
  - simpl. rewrite IH. simpl. split.
    + intros [->|[H Hs]]; tauto.
    + intros [[->|H] Hs]; [tauto|].
      destruct (row_eq_dec r x) as [->|Hne]; tauto.
Qed.

Lemma drop_duplicates_from_NoDup :
  forall rows seen, NoDup (drop_duplicates_from seen rows).
Proof.
  induction rows as [|r rows IH]; intros seen; simpl; [constructor|].
  destruct (in_dec row_eq_dec r seen); [apply IH|].
  constructor; [|apply IH].
  rewrite drop_duplicates_from_In. simpl. tauto.
Qed.

Lemma StronglySorted_weaken (A : Type) (R R' : A -> A -> Prop) (l : list A) :
  (forall x y, In x l -> In y l -> R x y -> R' x y) ->
  StronglySorted R l -> StronglySorted R' l.
Proof.
  induction l as [|a l IH]; intros H S; [constructor|].
  apply StronglySorted_inv in S. destruct S as [S F].
  constructor.
  - apply IH; [|exact S]. intros x y Hx Hy. apply H; now right.
  - rewrite Forall_forall in *. intros y Hy.
    apply H; [now left|now right|now apply F].
Qed.

(** Deduplication keeps the order of the rows. *)
Lemma drop_duplicates_from_sorted (R : row -> row -> Prop) :
  forall rows seen,
  StronglySorted R rows -> StronglySorted R (drop_duplicates_from seen rows).
Proof.
  induction rows as [|r rows IH]; intros seen S; simpl; [constructor|].
  apply StronglySorted_inv in S. destruct S as [S F].
  destruct (in_dec row_eq_dec r seen); [now apply IH|].
  constructor; [now apply IH|].
  rewrite Forall_forall in *. intros y Hy.
  apply drop_duplicates_from_In in Hy. apply F. tauto.
Qed.

(** The rows that stay are ranked by their first occurrence. *)
Lemma drop_duplicates_from_first :
  forall rows seen,
  StronglySorted (fun x y => first_index x rows < first_index y rows)
                 (drop_duplicates_from seen rows).
Proof.
  induction rows as [|r rows IH]; intros seen; simpl; [constructor|].
  assert (Shift : forall seen',
    In r seen' ->
    StronglySorted
      (fun x y => (if row_eq_dec x r then 0 else S (first_index x rows))
                  < (if row_eq_dec y r then 0 else S (first_index y rows)))
      (drop_duplicates_from seen' rows)).
  { intros seen' Hr.
    apply StronglySorted_weaken
      with (R := fun x y => first_index x rows < first_index y rows);
      [|apply IH].
    intros x y Hx Hy Hlt.
    apply drop_duplicates_from_In in Hx, Hy.
    destruct (row_eq_dec x r) as [->|_]; [tauto|].
    destruct (row_eq_dec y r) as [->|_]; [tauto|]. lia. }
  destruct (in_dec row_eq_dec r seen) as [Hin|Hout]; [now apply Shift|].
  constructor; [apply Shift; now left|].
  apply Forall_forall. intros y Hy. apply drop_duplicates_from_In in Hy.
  destruct (row_eq_dec r r) as [_|Hne]; [|congruence].
  destruct (row_eq_dec y r) as [->|_]; [simpl in Hy; tauto|lia].
Qed.

(** ** The rows before deduplication *)

(** Distinct keys have distinct labels: comparing rows by key is
    comparing them by the text of the column. *)
Lemma label_injective (k1 k2 : Category) : label k1 = label k2 -> k1 = k2.
Proof. destruct k1, k2; intros H; try reflexivity; discriminate H. Qed.

Lemma row_of_category (k : Category) (m : item) : Categoria (row_of k m) = k.
Proof. now destruct m. Qed.

Lemma row_of_trimmed (k : Category) (m : item) :
  strip (Valor (row_of k m)) = Valor (row_of k m).
Proof. destruct m; simpl; apply strip_idem. Qed.

Lemma raw_rows_In (text : str) (r : row) :
  In r (raw_rows U text) ->
  exists k m,
    In m (finditer U (compiled k) text)
    /\ r = row_of k (findall_item (compiled k) text m).
Proof.
  intros H. apply in_flat_map in H. destruct H as (k & _ & H).
  apply in_map_iff in H. destruct H as (it & <- & H).
  apply in_map_iff in H. destruct H as (m & <- & H).
  now exists k, m.
Qed.

(** Rows come grouped by key, in table order. *)
Lemma rows_by_category (items : Category -> list item) :
  forall ks,
  StronglySorted (fun a b => cat_index a < cat_index b) ks ->
  StronglySorted
    (fun a b => cat_index (Categoria a) <= cat_index (Categoria b))
    (flat_map (fun k => map (row_of k) (items k)) ks).
Proof.
  induction ks as [|k ks IH]; simpl; intros S; [constructor|].
  apply StronglySorted_inv in S. destruct S as [S F].
  induction (items k) as [|m ms IHm]; simpl; [now apply IH|].
  constructor; [exact IHm|].
  apply Forall_app. split; apply Forall_forall; intros x Hx.
  - apply in_map_iff in Hx. destruct Hx as (m' & <- & _).
    rewrite !row_of_category. lia.
  - apply in_flat_map in Hx. destruct Hx as (k' & Hk' & Hx).
    apply in_map_iff in Hx. destruct Hx as (m' & <- & _).
    rewrite !row_of_category. rewrite Forall_forall in F.
    specialize (F k' Hk'). lia.
Qed.

Lemma categories_sorted :
  StronglySorted (fun a b => cat_index a < cat_index b) categories.
Proof.
  unfold categories. repeat constructor; simpl; lia.
Qed.

End AnalyzeFacts.

(* ================================================================== *)
(** * Theorems about [analyze_legal_data] *)
(* ================================================================== *)

(** C1: on the text of scenario A the pattern of key Juzgado matches the
    whole text, but the only row of the analysis has the value [Juzgado],
    which does not contain the text.  Every pattern of the table has a
    group, so no value is an entire match: with one group in the pattern
    [findall] yields the text of that group, here the keyword. *)
Theorem C1_juzgado_scenario :
  map (group0 text_scenario_a)
      (finditer latin1 (compiled Juzgado) text_scenario_a)
  = [text_scenario_a]
  /\ analyze_legal_data latin1 text_scenario_a
     = Some [{| Categoria := Juzgado; Valor := utf8 "Juzgado" |}]
  /\ contains (utf8 "Juzgado") text_scenario_a = false
  /\ (forall k, 1 <= p_groups (compiled k)).
Proof.
  repeat split; try (vm_compute; reflexivity).
  destruct k; simpl; lia.
Qed.

(** C2, as stated, fails: on the text of scenario B no row of the
    analysis has key Demandado and value [Juan Pérez López]. *)
Lemma C2_demandado_counterexample :
  ~ exists rows,
      analyze_legal_data latin1 text_scenario_b = Some rows
      /\ In {| Categoria := Demandado; Valor := utf8 "Juan Pérez López" |} rows.
Proof.
  intros (rows & E & H). vm_compute in E. injection E as <-.
  destruct H as [H|[]]. discriminate H.
Qed.

(** C2 (amended): on the text of scenario B the analysis returns one
    row, of key Demandado, whose value is [Juan Pérez López compareció]:
    the name group runs over every following letter, space and dot; the
    value is trimmed, with no leading colon or space. *)
Theorem C2_demandado_scenario :
  analyze_legal_data latin1 text_scenario_b
  = Some [{| Categoria := Demandado;
             Valor := utf8 "Juan Pérez López compareció" |}].
Proof. vm_compute. reflexivity. Qed.

(** C4, as stated, fails: on [Demandante:] followed by two spaces the
    name group captures one space, and the analysis returns a row whose
    value is empty. *)
Lemma C4_empty_value_counterexample :
  exists rows r,
    analyze_legal_data latin1 (utf8 "Demandante:  ") = Some rows
    /\ In r rows /\ Categoria r = Demandante /\ strip (Valor r) = [].
Proof.
  eexists. eexists. split; [vm_compute; reflexivity|].
  split; [left; reflexivity|]. split; reflexivity.
Qed.

(** C7: for every text the analysis does not fail and its rows are
    pairwise distinct. *)
Theorem C7_no_duplicate_rows (U : unicode_db) (text : str) :
  exists rows,
    analyze_legal_data U text = Some rows /\ NoDup rows.
Proof.
  eexists. split; [apply analyze_rows|].
  apply drop_duplicates_from_NoDup.
Qed.

(** C10: for every text the rows of the analysis are determined as
    follows.  Before deduplication there is, for each key in table order
    (Juzgado, Expediente, Secretaría, Demandante, Demandado), one row per
    match of its pattern; the matches of a key are not empty and lie one
    entirely before the next in the text.  The result holds each of
    these rows once, ranked by first occurrence, and therefore grouped by
    key in table order. *)
Theorem C10_row_order (U : unicode_db) (text : str) :
  exists rows,
    analyze_legal_data U text = Some rows
    /\ raw_rows U text
       = flat_map
           (fun k => map (fun m => row_of k (findall_item (compiled k) text m))
                         (finditer U (compiled k) text))
           [Juzgado; Expediente; Secretaria; Demandante; Demandado]
    /\ (forall k, Forall (fun m => m_start m < m_end m)
                         (finditer U (compiled k) text)
                  /\ StronglySorted before (finditer U (compiled k) text))
    /\ NoDup rows
    /\ (forall r, In r rows <-> In r (raw_rows U text))
    /\ StronglySorted
         (fun x y => first_index x (raw_rows U text)
                     < first_index y (raw_rows U text)) rows
    /\ StronglySorted
         (fun a b => cat_index (Categoria a) <= cat_index (Categoria b)) rows.
Proof.
  eexists. split; [apply analyze_rows|]. repeat split.
  - unfold raw_rows, findall, categories. apply flat_map_ext.
    intros k. now rewrite map_map.
  - destruct (finditer_sound U (compiled k) text) as [F _].
    eapply Forall_impl; [|exact F]. simpl. intros m (_ & _ & Hf).
    apply (found_at_nonempty U (compiled k) text m); [|exact Hf].
    destruct k; vm_compute; lia.
  - apply finditer_sound.
  - apply drop_duplicates_from_NoDup.
  - intros H. apply drop_duplicates_from_In in H. tauto.
  - intros H. apply drop_duplicates_from_In. simpl. tauto.
  - apply drop_duplicates_from_first.
  - apply drop_duplicates_from_sorted.
    apply (rows_by_category (fun k => findall U (compiled k) text)).
    apply categories_sorted.
Qed.

(* ================================================================== *)
(** * Values of the keyword patterns *)
(* ================================================================== *)

Ltac bool_prop H :=
  repeat first
    [ rewrite orb_true_iff in H | rewrite andb_true_iff in H
    | rewrite orb_false_iff in H | rewrite andb_false_iff in H
    | rewrite negb_true_iff in H | rewrite negb_false_iff in H
    | rewrite N.leb_le in H | rewrite N.leb_gt in H
    | rewrite N.eqb_eq in H | rewrite N.eqb_neq in H ].

Lemma isspace_true (c : char) :
  isspace c = true ->
  (9 <= c <= 13 \/ 28 <= c <= 32 \/ c = 133 \/ c = 160 \/ c = 5760
   \/ 8192 <= c <= 8202 \/ c = 8232 \/ c = 8233 \/ c = 8239 \/ c = 8287
   \/ c = 12288)%N.
Proof. unfold isspace. intros H. bool_prop H. lia. Qed.

Lemma isspace_false (c : char) :
  isspace c = false ->
  ~ (9 <= c <= 13 \/ 28 <= c <= 32 \/ c = 133 \/ c = 160 \/ c = 5760
     \/ 8192 <= c <= 8202 \/ c = 8232 \/ c = 8233 \/ c = 8239 \/ c = 8287
     \/ c = 12288)%N.
Proof. unfold isspace. intros H. bool_prop H. lia. Qed.

Lemma latin1_tolower_cases (c : char) :
  (latin1_tolower c = c
   \/ (latin1_tolower c = c + 32 /\ (65 <= c <= 90 \/ 192 <= c <= 222))
   \/ In (latin1_tolower c) [105; 255; 223; 107; 229])%N.
Proof.
  unfold latin1_tolower.
  repeat match goal with
         | |- context [if ?b then _ else _] => destruct b eqn:?
         end;
    repeat match goal with H : _ = true |- _ => bool_prop H end;
    simpl; try lia; tauto.
Qed.

Lemma latin1_tolower_space (c : char) :
  isspace c = true -> latin1_tolower c = c.
Proof.
  intros H. apply isspace_true in H. unfold latin1_tolower.
  repeat match goal with
         | |- context [if ?b then _ else _] => destruct b eqn:?
         end;
    repeat match goal with E : _ = true |- _ => bool_prop E end;
    lia.
Qed.

Lemma latin1_whitespace_uncased : whitespace_uncased latin1.
Proof.
  intros p c M Hc. unfold lit_match in M. simpl in M.
  destruct (iscased latin1 p); [|apply N.eqb_eq in M; now subst].
  rewrite (latin1_tolower_space c Hc) in M.
  apply orb_true_iff in M. destruct M as [M|M].
  - apply N.eqb_eq in M. apply isspace_true in Hc.
    destruct (isspace p) eqn:Hp; [reflexivity|]. apply isspace_false in Hp.
    destruct (latin1_tolower_cases p) as [E|[[E R]|E]].
    + rewrite E in M. subst p. tauto.
    + lia.
    + rewrite <- M in E. simpl in E. lia.
  - exfalso. unfold mem in M. apply existsb_exists in M.
    destruct M as (x & Hx & E). apply N.eqb_eq in E. subst x.
    apply isspace_true in Hc. unfold latin1_fixes in Hx.
    repeat match type of Hx with
           | In _ (if ?b then _ else _) => destruct b
           end; simpl in Hx; lia.
Qed.

Section KeywordFacts.

Variable U : unicode_db.
Hypothesis Hws : whitespace_uncased U.

Lemma nonblank_head_sound (r : regex) :
  forall w, nonblank_head r = true -> lang U true r w ->
  exists c t, w = c :: t /\ isspace c = false.
Proof.
  induction r as [|a|min max a|r1 IH1 r2 IH2|r1 IH1 r2 IH2|g0 r1 IH1];
    intros w Hn L; simpl in Hn, L; try discriminate.
  - destruct a as [p| |]; try discriminate.
    destruct L as (c & -> & M). exists c, []. split; [reflexivity|].
    simpl in M. destruct (isspace c) eqn:Hc; [|reflexivity].
    rewrite (Hws p c M Hc) in Hn. discriminate.
  - destruct L as (w1 & w2 & -> & L1 & _).
    destruct (IH1 w1 Hn L1) as (c & t & -> & Hc).
    now exists c, (t ++ w2).
  - apply andb_true_iff in Hn. destruct Hn as [Hn1 Hn2].
    destruct L as [L|L]; [now apply IH1|now apply IH2].
  - now apply IH1.
Qed.

(** A match of a keyword pattern marks group 1 on a word that starts
    with a character that is not whitespace. *)
Lemma keyword_group (p : pattern) (text : str) (m : rmatch) :
  keyword_pattern p = true -> found_at U p text m ->
  exists c t, findall_item p text m = IStr (c :: t) /\ isspace c = false.
Proof.
  unfold keyword_pattern. intros K [adv F]. unfold match_at in F.
  destruct (p_re p) as [| | |r1 tail| |]; try discriminate.
  destruct r1 as [| | | | |g kw]; try discriminate.
  destruct g as [|[|g]]; try discriminate.
  apply andb_true_iff in K. destruct K as [K Hic].
  apply andb_true_iff in K. destruct K as [K Hg].
  apply andb_true_iff in K. destruct K as [Hkw Htail].
  apply Nat.eqb_eq in Hg. rewrite Hic in F. simpl in F.
  apply run_sound in F. destruct F as (n & caps1 & Hn & L & _ & F).
  apply run_sound in F. destruct F as (n2 & caps2 & _ & _ & G & F).
  unfold accept in F.
  destruct (adv && Nat.eqb (m_start m + n + n2) (m_start m)); [discriminate|].
  injection F as _ F.
  destruct (nonblank_head_sound kw _ Hkw L) as (c & t & E & Hc).
  exists c, t. split; [|exact Hc].
  unfold findall_item, group_or_empty, group. rewrite Hg, <- F.
  rewrite G.
  - simpl. unfold substr.
    replace (m_start m + n - m_start m) with n by lia. now rewrite E.
  - intros Hin. apply negb_true_iff in Htail.
    assert (X : existsb (Nat.eqb 1) (groups_of tail) = true).
    { apply existsb_exists. exists 1. split; [exact Hin|reflexivity]. }
    congruence.
Qed.

End KeywordFacts.

(** C4 (amended): for every text, every value returned by the analysis
    is trimmed: it neither starts nor ends with whitespace.  The values
    of keys Juzgado, Expediente and Secretaría are never empty; a value
    of key Demandante or Demandado may be empty (when the name group
    captured only whitespace). *)
Theorem C4_values_trimmed (U : unicode_db) (text : str) :
  whitespace_uncased U ->
  exists rows,
    analyze_legal_data U text = Some rows
    /\ forall r, In r rows ->
         strip (Valor r) = Valor r
         /\ (forall c t, Valor r = c :: t -> isspace c = false)
         /\ (forall t c, Valor r = t ++ [c] -> isspace c = false)
         /\ (Categoria r = Juzgado \/ Categoria r = Expediente
             \/ Categoria r = Secretaria -> Valor r <> []).
Proof.
  intros Hws. eexists. split; [apply analyze_rows|].
  intros r Hr. apply drop_duplicates_from_In in Hr. destruct Hr as [Hr _].
  apply raw_rows_In in Hr. destruct Hr as (k & m & Hm & ->).
  pose proof (row_of_trimmed k (findall_item (compiled k) text m)) as T.
  split; [exact T|]. split; [|split].
  - intros c t E. rewrite E in T. now apply strip_first in T.
  - intros t c E. rewrite E in T. now apply strip_last in T.
  - rewrite row_of_category. intros Hk.
    assert (K : keyword_pattern (compiled k) = true)
      by (destruct Hk as [->|[->| ->]]; reflexivity).
    destruct (finditer_sound U (compiled k) text) as [F _].
    rewrite Forall_forall in F. destruct (F m Hm) as (_ & _ & Hf).
    destruct (keyword_group U Hws (compiled k) text m K Hf)
      as (c & t & E & Hc).
    rewrite E. simpl. now apply strip_nonempty.
Qed.

(** C4 (amended) at a text with a keyword after a blank name. *)
Lemma C4_values_trimmed_witness :
  exists rows,
    analyze_legal_data latin1 (utf8 "Demandante:  Sala 2") = Some rows
    /\ map Valor rows = [utf8 "Sala"; utf8 "Sala"].
Proof.
  destruct (C4_values_trimmed latin1 (utf8 "Demandante:  Sala 2")
              latin1_whitespace_uncased) as (rows & E & _).
  exists rows. split; [exact E|].
  vm_compute in E. injection E as <-. reflexivity.
Defined.

(* ================================================================== *)
(** * Further properties: [extract_text_with_pages] *)
(* ================================================================== *)

Lemma enumerate_from_numbers (doc : list str) :
  forall i,
  map page_number (enumerate_from i doc)
  = map (fun k => (i + Z.of_nat k)%Z) (seq 1 (length doc))
  /\ map page_text (enumerate_from i doc) = doc.
Proof.
  induction doc as [|text doc IH]; intros i; simpl; [split; reflexivity|].
  destruct (IH (i + 1)%Z) as [Hn Ht]. rewrite Hn, Ht. split; [|reflexivity].
  replace (i + Z.of_nat 1)%Z with (i + 1)%Z by lia. f_equal.
  rewrite <- (seq_shift (length doc) 1), map_map.
  apply map_ext. intros k. lia.
Qed.

(** X1: the extractor returns one page per page of the document, with
    the texts unchanged and in order, numbered 1, 2, ... without gaps. *)
Theorem X1_extract_numbering (doc : list str) :
  length (extract_text_with_pages doc) = length doc
  /\ map page_text (extract_text_with_pages doc) = doc
  /\ map page_number (extract_text_with_pages doc)
     = map Z.of_nat (seq 1 (length doc)).
Proof.
  unfold extract_text_with_pages.
  destruct (enumerate_from_numbers doc 0) as [Hn Ht].
  split; [|split; [exact Ht|]].
  - rewrite <- Ht at 2. now rewrite length_map.
  - rewrite Hn. apply map_ext. intros k. lia.
Qed.

(* ================================================================== *)
(** * Further properties: [search_in_pdf] *)
(* ================================================================== *)

Section SearchMore.

Variable U : unicode_db.

(** Some match exists wherever the query occurs. *)
Lemma page_matches_complete (query : str) (pg : page) (i : nat) :
  occurs U query (page_text pg) i ->
  exists m, In m (page_matches U query pg).
Proof.
  intros Hocc. destruct query as [|c q].
  - exists (empty_match 0). unfold page_matches. rewrite finditer_empty.
    apply in_map_iff. exists 0. split; [reflexivity|]. simpl. now left.
  - destruct (finditer_literals_complete U (c :: q) (page_text pg) i)
      as (m & Hm & _); [discriminate|exact Hocc|].
    now exists m.
Qed.

Lemma hit_In (pages_text : list page) (query : str) (h : hit) :
  In h (flat_map (fun pg => map (hit_of pg) (page_matches U query pg))
                 pages_text)
  <-> exists pg m,
        In pg pages_text /\ In m (page_matches U query pg) /\ h = hit_of pg m.
Proof.
  rewrite in_flat_map. split.
  - intros (pg & Hpg & Hh). apply in_map_iff in Hh.
    destruct Hh as (m & <- & Hm). now exists pg, m.
  - intros (pg & m & Hpg & Hm & ->). exists pg. split; [exact Hpg|].
    now apply in_map.
Qed.

(** The matcher sees two patterns with the same letters alike. *)
Lemma lit_match_same_letter (p p' c : char) :
  same_letter U p p' -> lit_match U true p c = lit_match U true p' c.
Proof.
  intros [->|(Hp & Hp' & E)]; [reflexivity|].
  unfold lit_match. simpl. now rewrite Hp, Hp', E.
Qed.

Lemma lit_prefix_same_letters (q q' : str) :
  Forall2 (same_letter U) q q' ->
  forall rest, lit_prefix U true q rest = lit_prefix U true q' rest.
Proof.
  induction 1 as [|p p' q q' Hp _ IH]; intros [|c rest]; simpl; auto.
  now rewrite (lit_match_same_letter p p' c Hp), IH.
Qed.

(** The scanner depends on the pattern through the matcher only. *)
Lemma scan_ext (p p' : pattern) :
  (forall rest pos adv, match_at U p rest pos adv = match_at U p' rest pos adv) ->
  forall fuel rest pos adv,
  scan U fuel p rest pos adv = scan U fuel p' rest pos adv.
Proof.
  intros E. induction fuel as [|fuel IH]; intros rest pos adv; [reflexivity|].
  rewrite !scan_step, E.
  destruct (match_at U p' rest pos adv) as [[e caps]|].
  - now rewrite IH.
  - destruct rest; [reflexivity|apply IH].
Qed.

Lemma page_matches_same_letters (q q' : str) (pg : page) :
  Forall2 (same_letter U) q q' ->
  page_matches U q pg = page_matches U q' pg.
Proof.
  intros H. unfold page_matches, finditer. apply scan_ext.
  intros rest pos adv. rewrite !match_at_literals.
  rewrite (lit_prefix_same_letters q q' H rest).
  now rewrite (Forall2_length H).
Qed.

(** Non-overlapping matches of equal width [n] inside a text of length
    [len], all at or after [lo], leave room for no more than
    [(len - lo) / n] of them. *)
Lemma packed_matches (n len : nat) :
  forall ms lo,
  StronglySorted before ms ->
  Forall (fun m => lo <= m_start m /\ m_end m = m_start m + n
                   /\ m_end m <= len) ms ->
  lo <= len ->
  lo + length ms * n <= len.
Proof.
  induction ms as [|m ms IH]; intros lo S F Hlo; simpl; [lia|].
  apply StronglySorted_inv in S. destruct S as [S B].
  apply Forall_cons_iff in F. destruct F as [(H1 & H2 & H3) F].
  assert (F' : Forall (fun m' => m_end m <= m_start m'
                                 /\ m_end m' = m_start m' + n
                                 /\ m_end m' <= len) ms).
  { rewrite Forall_forall in *. intros m' Hm'.
    specialize (F m' Hm'). specialize (B m' Hm'). unfold before in B. tauto. }
  specialize (IH (m_end m) S F' H3). lia.
Qed.

Lemma page_matches_packed (query : str) (pg : page) :
  length (page_matches U query pg) * length query <= length (page_text pg).
Proof.
  destruct (finditer_sound U (lit_pattern query) (page_text pg)) as [F S].
  apply (packed_matches (length query) (length (page_text pg))
           (page_matches U query pg) 0 S); [|lia].
  apply Forall_forall. intros m Hm.
  destruct (page_matches_sound U query pg m Hm) as (_ & H2 & H3 & _).
  repeat split; [lia|exact H3|exact H2].
Qed.

Lemma replace1_no_old (s : str) : ~ In LF (replace1 LF SP s).
Proof.
  unfold replace1. intros H. apply in_map_iff in H.
  destruct H as (c & E & _).
  destruct (c =? LF)%N eqn:Ec; [discriminate E|].
  rewrite E, N.eqb_refl in Ec. discriminate Ec.
Qed.

Lemma Forall2_In_r (A B : Type) (R : A -> B -> Prop) (l : list A)
    (l' : list B) (y : B) :
  Forall2 R l l' -> In y l' -> exists x, In x l /\ R x y.
Proof.
  induction 1 as [|a b l l' Hab _ IH]; simpl; [tauto|].
  intros [<-|Hy].
  - exists a. auto.
  - destruct (IH Hy) as (x & Hx & Hr). exists x. auto.
Qed.

(** A text holds each of its substrings. *)
Lemma contains_substr (text : str) (s e : nat) :
  s <= e -> e <= length text -> contains text (substr text s e) = true.
Proof.
  intros H1 H2.
  assert (E : text = substr text 0 (length text)).
  { unfold substr. simpl. now rewrite Nat.sub_0_r, firstn_all. }
  rewrite E at 1.
  rewrite (substr_split text 0 s e (length text)) by lia.
  apply contains_middle.
Qed.

Lemma enumerate_from_In (doc : list str) :
  forall i pg,
  In pg (enumerate_from i doc) ->
  exists k,
    nth_error doc k = Some (page_text pg)
    /\ page_number pg = (i + 1 + Z.of_nat k)%Z.
Proof.
  induction doc as [|text doc IH]; intros i pg; simpl; [tauto|].
  intros [<-|H].
  - exists 0. simpl. split; [reflexivity|lia].
  - destruct (IH _ _ H) as (k & Hk & Hn). exists (S k). simpl.
    split; [exact Hk|lia].
Qed.

End SearchMore.

(** No hit means no occurrence, and conversely. *)
Lemma no_hits_iff_absent (U : unicode_db) (pages_text : list page)
    (query : str) :
  search_in_pdf U pages_text query = Some []
  <-> ~ occurs_somewhere U query pages_text.
Proof.
  rewrite search_in_pdf_rows. split.
  - intros E (pg & i & Hpg & Hocc). injection E as E.
    destruct (page_matches_complete U query pg i Hocc) as (m & Hm).
    assert (H : In (hit_of pg m)
                  (flat_map (fun pg => map (hit_of pg) (page_matches U query pg))
                            pages_text))
      by (apply hit_In; now exists pg, m).
    rewrite E in H. exact H.
  - intros H. f_equal.
    destruct (flat_map _ pages_text) as [|h hs] eqn:E; [reflexivity|].
    exfalso. apply H.
    assert (Hh : In h (h :: hs)) by now left.
    rewrite <- E in Hh. apply hit_In in Hh.
    destruct Hh as (pg & m & Hpg & Hm & _).
    exists pg, (m_start m). split; [exact Hpg|].
    now apply page_matches_sound.
Qed.

(** X2: for every page sequence and query, the search does not fail,
    and it returns no hit exactly when the query occurs on no page,
    compared as the matcher compares under IGNORECASE. *)
Theorem X2_no_hits_iff_absent (U : unicode_db) (pages_text : list page)
    (query : str) :
  (exists hits,
     search_in_pdf U pages_text query = Some hits
     /\ (hits = [] <-> ~ occurs_somewhere U query pages_text))
  /\ (search_in_pdf U pages_text query = Some []
      <-> ~ occurs_somewhere U query pages_text).
Proof.
  split; [|apply no_hits_iff_absent].
  pose proof (no_hits_iff_absent U pages_text query) as A.
  rewrite search_in_pdf_rows in *. eexists. split; [reflexivity|].
  split.
  - intros E. apply A. now rewrite E.
  - intros H. apply A in H. now injection H.
Qed.

(** X3: searching a page sequence made of two parts gives the hits of
    the first part followed by the hits of the second; the empty page
    sequence gives no hit. *)
Theorem X3_search_append (U : unicode_db) (pages1 pages2 : list page)
    (query : str) :
  search_in_pdf U [] query = Some []
  /\ exists hits1 hits2,
       search_in_pdf U pages1 query = Some hits1
       /\ search_in_pdf U pages2 query = Some hits2
       /\ search_in_pdf U (pages1 ++ pages2) query = Some (hits1 ++ hits2).
Proof.
  rewrite !search_in_pdf_rows. split; [reflexivity|].
  eexists. eexists. split; [reflexivity|]. split; [reflexivity|].
  now rewrite flat_map_app.
Qed.

(** X4: two queries that differ only in the case of their letters (at
    each position the same character, or two cased characters with the
    same lower case) return the same hits on every page sequence. *)
Theorem X4_search_ignores_case (U : unicode_db) (pages_text : list page)
    (query query' : str) :
  Forall2 (same_letter U) query query' ->
  search_in_pdf U pages_text query = search_in_pdf U pages_text query'.
Proof.
  intros H. rewrite !search_in_pdf_rows. f_equal.
  apply flat_map_ext. intros pg.
  now rewrite (page_matches_same_letters U query query' pg H).
Qed.

(** X4 at the queries [juzgado] and [JUZGADO]. *)
Lemma X4_search_ignores_case_witness :
  search_in_pdf latin1 [page_juzgado] (utf8 "juzgado")
  = search_in_pdf latin1 [page_juzgado] (utf8 "JUZGADO").
Proof.
  apply (X4_search_ignores_case latin1 [page_juzgado]
           (utf8 "juzgado") (utf8 "JUZGADO")).
  repeat (constructor; [right; repeat split; reflexivity|]). constructor.
Defined.

(** X5: the context of every hit is one line, with no newline in it, and
    is never longer than the text of the page it comes from. *)
Theorem X5_context_one_line (U : unicode_db) (pages_text : list page)
    (query : str) :
  exists hits,
    search_in_pdf U pages_text query = Some hits
    /\ forall h, In h hits ->
         ~ In LF (Contexto h)
         /\ exists pg,
              In pg pages_text /\ Pagina h = page_number pg
              /\ length (Contexto h) <= length (page_text pg).
Proof.
  eexists. split; [apply search_in_pdf_rows|].
  intros h Hh. apply hit_In in Hh. destruct Hh as (pg & m & Hpg & Hm & ->).
  destruct (page_matches_sound U query pg m Hm) as (H1 & H2 & _ & _).
  split.
  - rewrite hit_window by assumption. apply replace1_no_old.
  - exists pg. split; [exact Hpg|]. split; [reflexivity|].
    rewrite hit_window by assumption.
    rewrite replace1_length, substr_length by lia. lia.
Qed.

(** X6: hits of a page do not overlap (each match ends before the next
    one starts), so the hits of a search, times the length of the query,
    fit in the total length of the pages. *)
Theorem X6_hit_count_bound (U : unicode_db) (pages_text : list page)
    (query : str) :
  exists hits,
    search_in_pdf U pages_text query = Some hits
    /\ length hits * length query
       <= list_sum (map (fun pg => length (page_text pg)) pages_text)
    /\ hits = flat_map (fun pg => map (hit_of pg) (page_matches U query pg))
                       pages_text
    /\ forall pg, In pg pages_text ->
         StronglySorted (fun m1 m2 => m_end m1 <= m_start m2)
                        (page_matches U query pg).
Proof.
  eexists. split; [apply search_in_pdf_rows|].
  split; [|split; [reflexivity|intros pg _; apply finditer_sound]].
  induction pages_text as [|pg pages IH]; simpl; [lia|].
  rewrite length_app, length_map, Nat.mul_add_distr_r.
  pose proof (page_matches_packed U query pg). lia.
Qed.

(** X7: when the query has no newline, and the newline has no case
    variant, the context of every hit contains the matched text as it
    is: the text the highlighting step looks for is there. *)
Theorem X7_context_holds_match (U : unicode_db) (pages_text : list page)
    (query : str) :
  newline_isolated U -> ~ In LF query ->
  exists hits,
    search_in_pdf U pages_text query = Some hits
    /\ forall h, In h hits ->
         ~ In LF (Coincidencia h)
         /\ contains (Contexto h) (Coincidencia h) = true.
Proof.
  intros Hnl Hq. eexists. split; [apply search_in_pdf_rows|].
  intros h Hh. apply hit_In in Hh. destruct Hh as (pg & m & Hpg & Hm & ->).
  destruct (page_matches_sound U query pg m Hm) as (H1 & H2 & H3 & H4).
  assert (N : ~ In LF (Coincidencia (hit_of pg m))).
  { unfold hit_of, group0, substr. simpl. rewrite H3.
    replace (m_start m + length query - m_start m) with (length query) by lia.
    intros Hin. apply lit_prefix_Forall2 in H4.
    destruct (Forall2_In_r _ _ _ _ _ LF H4 Hin) as (p & Hp & M).
    apply Hnl in M. now subst p. }
  split; [exact N|].
  destruct (hit_window_split pg m H1 H2) as (l & r & E).
  rewrite E, (replace1_absent LF SP _ N). apply contains_middle.
Qed.

Lemma latin1_match_newline (p c : char) :
  lit_match latin1 true p c = true -> c = LF -> p = LF.
Proof.
  intros M Hc. unfold lit_match in M. simpl in M.
  destruct (iscased latin1 p); [|apply N.eqb_eq in M; congruence].
  assert (T : latin1_tolower c = c) by (subst c; reflexivity).
  rewrite T in M. unfold LF in *.
  apply orb_true_iff in M. destruct M as [M|M].
  - apply N.eqb_eq in M.
    destruct (latin1_tolower_cases p) as [E|[[E R]|E]].
    + congruence.
    + lia.
    + rewrite <- M in E. simpl in E. lia.
  - exfalso. unfold mem in M. apply existsb_exists in M.
    destruct M as (x & Hx & E). apply N.eqb_eq in E. subst x.
    unfold latin1_fixes in Hx.
    repeat match type of Hx with
           | In _ (if ?b then _ else _) => destruct b
           end; simpl in Hx; lia.
Qed.

Lemma latin1_newline_isolated : newline_isolated latin1.
Proof. intros p M. now apply (latin1_match_newline p LF). Qed.

(** X7 at the query [a.a] on a two-page document. *)
Lemma X7_context_holds_match_witness :
  exists hits,
    search_in_pdf latin1 (extract_text_with_pages doc_c8) (utf8 "a.a")
    = Some hits
    /\ Forall (fun h => contains (Contexto h) (Coincidencia h) = true) hits.
Proof.
  destruct (X7_context_holds_match latin1 (extract_text_with_pages doc_c8)
              (utf8 "a.a") latin1_newline_isolated) as (hits & E & H).
  - simpl. unfold LF. intros [H|[H|[H|[]]]]; discriminate H.
  - exists hits. split; [exact E|].
    apply Forall_forall. intros h Hh. now apply H.
Defined.

(** X8: on the pages the extractor returns for a document, the page
    number of every hit is a valid 1-based page number of the document,
    and the matched text is found in the text of that page. *)
Theorem X8_hits_point_to_pages (U : unicode_db) (doc : list str)
    (query : str) :
  exists hits,
    search_in_pdf U (extract_text_with_pages doc) query = Some hits
    /\ forall h, In h hits ->
         (1 <= Pagina h <= Z.of_nat (length doc))%Z
         /\ exists text,
              nth_error doc (Z.to_nat (Pagina h - 1)) = Some text
              /\ contains text (Coincidencia h) = true.
Proof.
  eexists. split; [apply search_in_pdf_rows|].
  intros h Hh. apply hit_In in Hh. destruct Hh as (pg & m & Hpg & Hm & ->).
  destruct (page_matches_sound U query pg m Hm) as (H1 & H2 & _ & _).
  destruct (enumerate_from_In doc 0 pg Hpg) as (k & Hk & Hn).
  assert (Hlt : k < length doc) by (apply nth_error_Some; congruence).
  simpl Pagina. rewrite Hn. split; [lia|].
  exists (page_text pg). split.
  - replace (Z.to_nat (0 + 1 + Z.of_nat k - 1)) with k by lia. exact Hk.
  - unfold hit_of, group0. simpl. now apply contains_substr.
Qed.

(* ================================================================== *)
(** * Further properties: the highlighting step of [main] *)
(* ================================================================== *)

Section GroupParse.

(** An escaped query followed by a closing parenthesis does not begin
    with a quantifier nor with a question mark. *)
Lemma escape_tail_head (q t : str) :
  starts_with_quantifier (escape q ++ RPAR :: t) = false
  /\ exists c s0,
       escape q ++ RPAR :: t = c :: s0 /\ (c =? QM)%N = false
       /\ (q <> [] ->
           ((c =? BAR) || (c =? RPAR))%N = false /\ (c =? LPAR)%N = false).
Proof.
  destruct q as [|c q]; simpl.
  - split; [reflexivity|]. exists RPAR, t. repeat split; congruence.
  - destruct (is_special c) eqn:E; simpl.
    + split; [reflexivity|]. eexists. eexists. split; [reflexivity|].
      repeat split; reflexivity.
    + destruct (parse_atom_plain c [] E) as (_ & Hq & Hb & Hr & Hl).
      split; [exact Hq|]. eexists. eexists. split; [reflexivity|].
      unfold is_quantifier in Hq.
      apply orb_false_iff in Hq. destruct Hq as [Hq _].
      apply orb_false_iff in Hq. destruct Hq as [_ Hq].
      rewrite Hq, Hb, Hr, Hl. repeat split; reflexivity.
Qed.

Lemma parse_item_escape_tail (fuel : nat) (c : char) (q t : str) (g : nat) :
  parse_item (S fuel) (escape (c :: q) ++ RPAR :: t) g
  = Some (Chr (ALit c), escape q ++ RPAR :: t, g).
Proof.
  assert (Q : forall a, parse_quantified a (escape q ++ RPAR :: t)
                        = Some (Chr a, escape q ++ RPAR :: t)).
  { intros a. destruct (escape_tail_head q t) as [Hq (d & s0 & E & _)].
    unfold parse_quantified. rewrite E in *. simpl in Hq. now rewrite Hq. }
  simpl escape. destruct (is_special c) eqn:E.
  - simpl app. cbn [parse_item]. change (BSL =? LPAR)%N with false. cbv iota.
    rewrite (parse_atom_special c (escape q ++ RPAR :: t) E). now rewrite Q.
  - destruct (parse_atom_plain c (escape q ++ RPAR :: t) E)
      as (Ha & _ & _ & _ & Hl).
    simpl app. cbn [parse_item]. rewrite Hl, Ha. now rewrite Q.
Qed.

Lemma parse_seq_escape_tail (q t : str) :
  forall fuel g, length q < fuel ->
  parse_seq fuel (escape q ++ RPAR :: t) g = Some (literals q, RPAR :: t, g).
Proof.
  induction q as [|c q IH]; intros fuel g Hf.
  - destruct fuel; [simpl in Hf; lia|]. reflexivity.
  - destruct fuel as [|fuel]; simpl in Hf; [lia|].
    destruct (escape_tail_head (c :: q) t) as [_ (d & s0 & E & _ & Hh)].
    destruct Hh as [Hh _]; [discriminate|].
    cbn [parse_seq]. rewrite E, Hh, <- E.
    destruct fuel as [|fuel]; [lia|].
    rewrite parse_item_escape_tail. cbv beta iota.
    rewrite IH by lia. reflexivity.
Qed.

(** The escaped query between parentheses parses to one group holding
    the literals of the query. *)
Lemma parse_group_escape (q : str) :
  parse (LPAR :: escape q ++ [RPAR])
  = Some (Seq (Group 1 (literals q)) Eps, 1).
Proof.
  unfold parse. pose proof (escape_length q) as L.
  assert (F : exists f, 3 * length (LPAR :: escape q ++ [RPAR]) + 3
                        = S (S (S (S (S f)))) /\ length q < S f).
  { simpl length. rewrite length_app. simpl.
    exists (3 * (length (escape q) + 1) + 1). lia. }
  destruct F as (f & -> & Hf).
  destruct (escape_tail_head q []) as [_ (d & s0 & E & Hd & _)].
  assert (A : parse_alt (S (S f)) (escape q ++ [RPAR]) 1
              = Some (literals q, [RPAR], 1)).
  { cbn [parse_alt]. rewrite parse_seq_escape_tail by lia. reflexivity. }
  assert (I : parse_item (S (S (S f))) (LPAR :: escape q ++ [RPAR]) 0
              = Some (Group 1 (literals q), [], 1)).
  { cbn [parse_item]. rewrite N.eqb_refl. rewrite E at 1. rewrite Hd.
    rewrite A. reflexivity. }
  assert (S0 : parse_seq (S (S (S (S f)))) (LPAR :: escape q ++ [RPAR]) 0
               = Some (Seq (Group 1 (literals q)) Eps, [], 1)).
  { cbn [parse_seq]. change ((LPAR =? BAR) || (LPAR =? RPAR))%N with false.
    cbv iota. rewrite I. reflexivity. }
  cbn [parse_alt]. rewrite S0. reflexivity.
Qed.

Lemma compile_highlight_pattern (q : str) :
  compile_inline (highlight_pattern q) = Some (group_pattern q).
Proof.
  unfold highlight_pattern.
  change (utf8 "(?i)(") with [40; 63; 105; 41; 40]%N.
  change (utf8 ")") with [RPAR]. simpl app. unfold compile_inline, compile.
  change 40%N with LPAR at 1. now rewrite parse_group_escape.
Qed.

(** The template has no group reference: it is all literal text. *)
Lemma parse_mark_template :
  parse_template 1 mark_template = Some (map TLit mark_text).
Proof. vm_compute. reflexivity. Qed.

Lemma expand_literal (text : str) (m : rmatch) (s : str) :
  expand text m (map TLit s) = s.
Proof.
  unfold expand. induction s as [|c s IH]; simpl; [reflexivity|].
  now rewrite IH.
Qed.

End GroupParse.

Section HighlightFacts.

Variable U : unicode_db.

Lemma match_at_group (q rest : str) (pos : nat) (adv : bool) :
  match_at U (group_pattern q) rest pos adv =
  match match_at U (lit_pattern q) rest pos adv with
  | Some (e, _) => Some (e, [(1, (pos, e))])
  | None => None
  end.
Proof.
  rewrite match_at_literals. unfold match_at. simpl. rewrite run_literals.
  destruct (lit_prefix U true q rest); [|reflexivity].
  unfold accept. now destruct (adv && Nat.eqb (pos + length q) pos).
Qed.

(** The matches of the grouped query are those of the query, each with
    the mark of its group. *)
Lemma scan_group (q : str) :
  forall fuel rest pos adv,
  scan U fuel (group_pattern q) rest pos adv
  = map with_group (scan U fuel (lit_pattern q) rest pos adv).
Proof.
  induction fuel as [|fuel IH]; intros rest pos adv; [reflexivity|].
  rewrite !scan_step, match_at_group.
  destruct (match_at U (lit_pattern q) rest pos adv) as [[e caps]|].
  - simpl. now rewrite IH.
  - destruct rest; [reflexivity|apply IH].
Qed.

Lemma sub_from_with_group (text c : str) :
  forall ms i,
  sub_from text i (map with_group ms) (fun _ => c)
  = sub_from text i ms (fun _ => c).
Proof.
  induction ms as [|m ms IH]; intros i; simpl; [reflexivity|].
  now rewrite IH.
Qed.

Lemma sub_from_ext (text : str) (f g : rmatch -> str) :
  (forall m, f m = g m) ->
  forall ms i, sub_from text i ms f = sub_from text i ms g.
Proof.
  intros E. induction ms as [|m ms IH]; intros i; simpl; [reflexivity|].
  now rewrite E, IH.
Qed.

(** The highlighting step never fails, and puts the same text in the
    place of every match. *)
Lemma highlighted_marked (query contexto : str) :
  highlighted U query contexto = Some (marked U query contexto).
Proof.
  unfold highlighted, re_sub. rewrite compile_highlight_pattern.
  simpl p_groups. rewrite parse_mark_template. f_equal.
  unfold sub, marked, finditer. rewrite scan_group.
  rewrite (sub_from_ext contexto _ (fun _ => mark_text)).
  - apply sub_from_with_group.
  - intros m. apply expand_literal.
Qed.

Lemma highlight_rows_marked (query : str) (df : list hit) :
  highlight_rows U query df
  = Some (map (fun fila => (Pagina fila, marked U query (Contexto fila))) df).
Proof.
  induction df as [|fila df IH]; simpl; [reflexivity|].
  now rewrite highlighted_marked, IH.
Qed.

(** Without a match the substitution returns the text. *)
Lemma marked_absent (query contexto : str) :
  ~ (exists i, occurs U query contexto i) ->
  marked U query contexto = contexto.
Proof.
  intros H. unfold marked.
  destruct (finditer U (lit_pattern query) contexto) as [|m ms] eqn:E;
    [reflexivity|].
  exfalso. apply H. exists (m_start m).
  pose (pg := {| page_number := 0; page_text := contexto |}).
  apply (page_matches_sound U query pg m).
  unfold page_matches. simpl. rewrite E. now left.
Qed.

(** The length of a substitution by a constant: the text, less the
    matched parts, plus the constant once per match. *)
Lemma sub_from_length (text c : str) :
  forall ms i,
  StronglySorted before ms ->
  Forall (fun m => i <= m_start m /\ m_start m <= m_end m
                   /\ m_end m <= length text) ms ->
  i <= length text ->
  length (sub_from text i ms (fun _ => c))
  + list_sum (map (fun m => m_end m - m_start m) ms)
  = length text - i + length ms * length c.
Proof.
  induction ms as [|m ms IH]; intros i S F Hi; simpl.
  - rewrite length_skipn. lia.
  - apply StronglySorted_inv in S. destruct S as [S B].
    apply Forall_cons_iff in F. destruct F as [(H1 & H2 & H3) F].
    assert (F' : Forall (fun m' => m_end m <= m_start m'
                                   /\ m_start m' <= m_end m'
                                   /\ m_end m' <= length text) ms).
    { rewrite Forall_forall in *. intros m' Hm'.
      specialize (F m' Hm'). specialize (B m' Hm'). unfold before in B.
      tauto. }
    specialize (IH (m_end m) S F' H3).
    rewrite !length_app, substr_length by lia. lia.
Qed.

End HighlightFacts.

(** X9: for every query and context the highlighting step of [main]
    does not fail, and returns the context with every match of the query
    (case-insensitive, left to right, non-overlapping) replaced by one
    fixed text: the markup around a backslash and the digit 1.  The
    doubled backslash of the template is an escaped backslash, not a
    reference to the group, so the replacement is the same whatever was
    matched and does not carry the matched text.  With [n] matches the result is [n] times the length of the markup
    less the query longer than the context. *)
Theorem X9_highlight_drops_match (U : unicode_db) (query contexto : str) :
  highlighted U query contexto
  = Some (sub_from contexto 0 (finditer U (lit_pattern query) contexto)
                   (fun _ => mark_text))
  /\ parse_template 1 mark_template = Some (map TLit mark_text)
  /\ length (marked U query contexto)
     + length (finditer U (lit_pattern query) contexto) * length query
     = length contexto
       + length (finditer U (lit_pattern query) contexto) * length mark_text.
Proof.
  split; [apply highlighted_marked|]. split; [apply parse_mark_template|].
  destruct (finditer_sound U (lit_pattern query) contexto) as [F S].
  pose proof (sub_from_length contexto mark_text
                (finditer U (lit_pattern query) contexto) 0 S) as L.
  assert (W : list_sum (map (fun m => m_end m - m_start m)
                            (finditer U (lit_pattern query) contexto))
              = length (finditer U (lit_pattern query) contexto)
                * length query).
  { clear L S. induction F as [|m ms (_ & _ & Hf) _ IH]; simpl; [reflexivity|].
    apply found_at_literals in Hf. destruct Hf as (He & _ & _).
    rewrite IH. lia. }
  unfold marked. rewrite <- W.
  rewrite L; [lia| |lia].
  eapply Forall_impl; [|exact F]. simpl. intros m (H1 & H2 & _). lia.
Qed.

(** X10: when the query occurs nowhere in the context, the highlighting
    step returns the context unchanged. *)
Theorem X10_highlight_absent (U : unicode_db) (query contexto : str) :
  ~ (exists i, occurs U query contexto i) ->
  highlighted U query contexto = Some contexto.
Proof.
  intros H. rewrite highlighted_marked. f_equal. now apply marked_absent.
Qed.

(** X10 at the query [xyz] and the context [ab]. *)
Lemma X10_highlight_absent_witness :
  highlighted latin1 (utf8 "xyz") (utf8 "ab") = Some (utf8 "ab").
Proof.
  apply (X10_highlight_absent latin1 (utf8 "xyz") (utf8 "ab")).
  intros [i H]. unfold occurs in H.
  destruct i as [|[|[|i]]]; simpl in H; discriminate H.
Defined.

(* ================================================================== *)
(** * Further properties: the two modes of [main] *)
(* ================================================================== *)

Section MainFacts.

Variable U : unicode_db.

Lemma lit_prefix_firstn (q rest tail : str) :
  lit_prefix U true q rest = true ->
  lit_prefix U true q (firstn (length q) rest ++ tail) = true.
Proof.
  revert rest. induction q as [|p q IH]; intros [|c rest] H; simpl in *;
    try discriminate; auto.
  apply andb_true_iff in H. destruct H as [Hc H].
  now rewrite Hc, IH.
Qed.

Lemma skipn_app_exact (A : Type) (l l' : list A) :
  skipn (length l) (l ++ l') = l'.
Proof. induction l as [|a l IH]; simpl; auto. Qed.

(** A context that holds the matched text holds an occurrence of the
    query. *)
Lemma context_occurrence (query : str) (pg : page) (m : rmatch) :
  In m (page_matches U query pg) ->
  ~ In LF (Coincidencia (hit_of pg m)) ->
  exists i, occurs U query (Contexto (hit_of pg m)) i.
Proof.
  intros Hm N.
  destruct (page_matches_sound U query pg m Hm) as (H1 & H2 & H3 & H4).
  destruct (hit_window_split pg m H1 H2) as (l & r & E).
  exists (length (replace1 LF SP l)). unfold occurs.
  rewrite E, skipn_app_exact, (replace1_absent LF SP _ N).
  unfold hit_of, group0, substr. simpl. rewrite H3.
  replace (m_start m + length query - m_start m) with (length query) by lia.
  now apply lit_prefix_firstn.
Qed.

Lemma matched_no_newline (query : str) (pg : page) (m : rmatch) :
  newline_isolated U -> ~ In LF query ->
  In m (page_matches U query pg) ->
  ~ In LF (Coincidencia (hit_of pg m)).
Proof.
  intros Hnl Hq Hm.
  destruct (page_matches_sound U query pg m Hm) as (H1 & H2 & H3 & H4).
  unfold hit_of, group0, substr. simpl. rewrite H3.
  replace (m_start m + length query - m_start m) with (length query) by lia.
  intros Hin. apply lit_prefix_Forall2 in H4.
  destruct (Forall2_In_r _ _ _ _ _ LF H4 Hin) as (p & Hp & M).
  apply Hnl in M. now subst p.
Qed.

(** With a match at hand the substitution holds the replacement. *)
Lemma marked_present (query contexto : str) (i : nat) :
  query <> [] -> occurs U query contexto i ->
  contains (marked U query contexto) mark_text = true.
Proof.
  intros Hq Hocc.
  destruct (finditer_literals_complete U query contexto i Hq Hocc)
    as (m & Hm & _).
  unfold marked.
  destruct (finditer U (lit_pattern query) contexto) as [|m0 ms];
    [destruct Hm|].
  cbn [sub_from]. apply contains_middle.
Qed.

(** ** [str.join] *)

Lemma join_cons (sep s : str) (parts : list str) :
  parts <> [] -> join sep (s :: parts) = s ++ sep ++ join sep parts.
Proof. destruct parts; [congruence|reflexivity]. Qed.

Lemma join_split (sep s : str) (parts : list str) :
  In s parts -> exists l r, join sep parts = l ++ s ++ r.
Proof.
  induction parts as [|a parts IH]; [intros []|].
  intros [->|H].
  - destruct parts as [|b parts].
    + exists [], []. simpl. now rewrite app_nil_r.
    + exists [], (sep ++ join sep (b :: parts)). reflexivity.
  - destruct (IH H) as (l & r & E).
    rewrite join_cons by (intros ->; destruct H). rewrite E.
    exists (a ++ sep ++ l), r. now rewrite <- !app_assoc.
Qed.

Lemma join_length_cons (sep : str) (parts : list str) :
  forall a,
  length (join sep (a :: parts)) + length sep
  = length a + length sep
    + list_sum (map (fun s => length s + length sep) parts).
Proof.
  induction parts as [|b parts IH]; intros a.
  - simpl. lia.
  - rewrite join_cons by discriminate. rewrite !length_app.
    specialize (IH b).
    change (list_sum (map (fun s => length s + length sep) (b :: parts)))
      with (length b + length sep
            + list_sum (map (fun s => length s + length sep) parts)).
    lia.
Qed.

Lemma join_length (sep : str) (parts : list str) :
  parts <> [] ->
  length (join sep parts) + length sep
  = list_sum (map (fun s => length s + length sep) parts).
Proof.
  destruct parts as [|a parts]; [congruence|]. intros _.
  apply join_length_cons.
Qed.

End MainFacts.

(** The lines of mode 1, row by row. *)
Lemma highlight_lines (U : unicode_db) (query : str) (df : list hit) :
  Forall2 (fun fila linea =>
             fst linea = Pagina fila
             /\ highlighted U query (Contexto fila) = Some (snd linea))
          df
          (map (fun fila => (Pagina fila, marked U query (Contexto fila))) df).
Proof.
  induction df as [|f fs IH]; simpl; constructor; [|exact IH].
  simpl. split; [reflexivity|apply highlighted_marked].
Qed.

(** X11: mode 1 of [main] raises in two cases only, both outside the
    program: the upload cannot be read, or the spreadsheet writer rejects
    the table of hits.  The search and the highlighting never raise.
    Without an upload nothing is searched.  With a readable upload, it
    shows nothing when the query is empty; it shows the warning when the
    query is not empty and occurs on no page of the document; otherwise
    the table of hits, not empty, goes to the writer and, once written,
    is shown with one line per hit that carries the page number of the
    hit and its highlighted context.  So on the one page [ab] the
    typed query [A] gives one hit and the line with [a] replaced by the
    markup. *)
Theorem X11_main_busqueda (U : unicode_db) (to_excel : list hit -> bool)
    (tipo_busqueda texto : str) :
  let query := main_query tipo_busqueda texto in
  main_busqueda U to_excel None tipo_busqueda texto = Some SinArchivo
  /\ main_busqueda U to_excel (Some Ilegible) tipo_busqueda texto = None
  /\ main_busqueda latin1 (fun _ => true) (Some (Documento [utf8 "ab"]))
       (utf8 "Personalizado") (utf8 "A")
     = Some (Coincidencias
               [ {| Pagina := 1; Coincidencia := utf8 "a";
                    Contexto := utf8 "ab" |} ]
               [ (1%Z, mark_text ++ utf8 "b") ])
  /\ main_busqueda latin1 (fun _ => false) (Some (Documento [utf8 "ab"]))
       (utf8 "Personalizado") (utf8 "A")
     = None
  /\ forall doc,
       let pages_text := extract_text_with_pages doc in
       let out :=
         main_busqueda U to_excel (Some (Documento doc)) tipo_busqueda texto in
       exists df,
         search_in_pdf U pages_text query = Some df
         /\ (df = [] <-> ~ occurs_somewhere U query pages_text)
         /\ (out = None <-> query <> [] /\ df <> [] /\ to_excel df = false)
         /\ (out = Some SinConsulta <-> query = [])
         /\ (out = Some SinCoincidencias <-> query <> [] /\ df = [])
         /\ out <> Some SinArchivo
         /\ (forall df' lineas,
               out = Some (Coincidencias df' lineas) ->
               df' = df /\ query <> [] /\ df <> [] /\ to_excel df = true
               /\ Forall2 (fun fila linea =>
                             fst linea = Pagina fila
                             /\ highlighted U query (Contexto fila)
                                = Some (snd linea))
                          df lineas)
         /\ (query <> [] -> df <> [] -> to_excel df = true ->
             exists lineas, out = Some (Coincidencias df lineas)).
Proof.
  intros query.
  split; [reflexivity|]. split; [reflexivity|].
  split; [vm_compute; reflexivity|]. split; [vm_compute; reflexivity|].
  intros doc pages_text out. subst out. unfold main_busqueda.
  fold query. fold pages_text.
  pose proof (no_hits_iff_absent U pages_text query) as A.
  rewrite search_in_pdf_rows in *.
  set (df := flat_map (fun pg => map (hit_of pg) (page_matches U query pg))
                      pages_text) in *.
  exists df. split; [reflexivity|].
  assert (A' : df = [] <-> ~ occurs_somewhere U query pages_text).
  { split.
    - intros E. apply A. now rewrite E.
    - intros H. apply A in H. now injection H. }
  split; [exact A'|]. clear A A'.
  destruct query as [|c q] eqn:Eq.
  - split; [split; [discriminate|intros [H _]; congruence]|].
    split; [tauto|].
    split; [split; [discriminate|intros [H _]; congruence]|].
    split; [discriminate|].
    split; [discriminate|]. intros H. congruence.
  - destruct df as [|fila filas] eqn:Ed.
    + split; [split; [discriminate|intros (_ & H & _); congruence]|].
      split; [split; discriminate|].
      split; [split; [intros _; split; [discriminate|reflexivity]
                     |reflexivity]|].
      split; [discriminate|].
      split; [discriminate|]. intros _ H. congruence.
    + destruct (to_excel (fila :: filas)) eqn:Ex.
      * rewrite highlight_rows_marked.
        split; [split; [discriminate|intros (_ & _ & H); discriminate H]|].
        split; [split; discriminate|].
        split; [split; [discriminate|intros (_ & H); discriminate H]|].
        split; [discriminate|].
        split.
        -- intros df' lineas E. injection E as <- <-.
           split; [reflexivity|]. split; [discriminate|].
           split; [discriminate|]. split; [reflexivity|].
           apply (highlight_lines U (c :: q) (fila :: filas)).
        -- intros _ _ _. eexists. reflexivity.
      * split; [split; [intros _; repeat split; discriminate|reflexivity]|].
        split; [split; discriminate|].
        split; [split; [discriminate|intros (_ & H); discriminate H]|].
        split; [discriminate|].
        split; [discriminate|]. intros _ _ H. discriminate H.
Qed.

(** X12: for a query that is not empty and has no newline (the newline
    having no case variant), the highlighting step finds the query in the
    context of every hit: the highlighted context holds the markup at
    least once, so every line that mode 1 shows is marked. *)
Theorem X12_every_line_marked (U : unicode_db) (pages_text : list page)
    (query : str) :
  newline_isolated U -> query <> [] -> ~ In LF query ->
  exists hits,
    search_in_pdf U pages_text query = Some hits
    /\ forall h, In h hits ->
         exists out,
           highlighted U query (Contexto h) = Some out
           /\ contains out mark_text = true.
Proof.
  intros Hnl Hne Hq. eexists. split; [apply search_in_pdf_rows|].
  intros h Hh. apply hit_In in Hh. destruct Hh as (pg & m & Hpg & Hm & ->).
  pose proof (matched_no_newline U query pg m Hnl Hq Hm) as N.
  destruct (context_occurrence U query pg m Hm N) as (i & Hi).
  eexists. split; [apply highlighted_marked|].
  now apply (marked_present U query _ i).
Qed.

(** X12 at the query [juzgado] on a page that holds it twice. *)
Lemma X12_every_line_marked_witness :
  exists hits,
    search_in_pdf latin1 [page_juzgado] (utf8 "juzgado") = Some hits
    /\ length hits = 2
    /\ Forall (fun h => exists out,
                  highlighted latin1 (utf8 "juzgado") (Contexto h) = Some out
                  /\ contains out mark_text = true) hits.
Proof.
  destruct (X12_every_line_marked latin1 [page_juzgado] (utf8 "juzgado")
              latin1_newline_isolated) as (hits & E & H).
  - discriminate.
  - simpl. unfold LF. intros Hin.
    repeat (destruct Hin as [Hin|Hin]; [discriminate Hin|]). exact Hin.
  - exists hits. split; [exact E|]. split.
    + vm_compute in E. injection E as <-. reflexivity.
    + apply Forall_forall. intros h Hh. now apply H.
Defined.

(** X13: the text that mode 2 analyses is the texts of the pages joined
    by single spaces: it holds the text of every page, and for a document
    with pages its length is the total of the page lengths plus one per
    page, less one. *)
Theorem X13_full_text (doc : list str) :
  full_text (extract_text_with_pages doc) = join [SP] doc
  /\ (forall text, In text doc ->
        contains (full_text (extract_text_with_pages doc)) text = true)
  /\ (doc <> [] ->
      length (full_text (extract_text_with_pages doc)) + 1
      = list_sum (map (fun text => length text + 1) doc)).
Proof.
  assert (E : full_text (extract_text_with_pages doc) = join [SP] doc).
  { unfold full_text, extract_text_with_pages.
    now destruct (enumerate_from_numbers doc 0) as [_ ->]. }
  rewrite E. split; [reflexivity|]. split.
  - intros text H. destruct (join_split [SP] text doc H) as (l & r & ->).
    apply contains_middle.
  - intros H. apply (join_length [SP] doc H).
Qed.

(* ================================================================== *)
(** * Further properties: [analyze_legal_data] *)
(* ================================================================== *)

Section AnalyzeMore.

Variable U : unicode_db.

(** A match is at least as wide as the shortest word of its pattern. *)
Lemma found_at_width (p : pattern) (text : str) (m : rmatch) :
  found_at U p text m -> min_width (p_re p) <= m_end m - m_start m.
Proof.
  intros [adv F].
  destruct (match_at_sound U (p_icase p) p _ _ _ _ _ F eq_refl)
    as (H1 & _ & _ & L).
  apply lang_min_width in L. rewrite length_firstn in L. lia.
Qed.

Lemma finditer_width (p : pattern) (text : str) (m : rmatch) :
  In m (finditer U p text) -> min_width (p_re p) <= length text.
Proof.
  intros Hm. destruct (finditer_sound U p text) as [F _].
  rewrite Forall_forall in F. destruct (F m Hm) as (H1 & H2 & Hf).
  apply found_at_width in Hf. lia.
Qed.

Lemma drop_duplicates_nil (rows : list row) :
  drop_duplicates rows = [] <-> rows = [].
Proof.
  split; [|intros ->; reflexivity].
  destruct rows as [|r rows]; [reflexivity|].
  unfold drop_duplicates. simpl. discriminate.
Qed.

Lemma raw_rows_nil (text : str) :
  raw_rows U text = [] <-> forall k, finditer U (compiled k) text = [].
Proof.
  unfold raw_rows, categories, findall. simpl. rewrite app_nil_r. split.
  - intros H.
    repeat (apply app_eq_nil in H; destruct H as [?H H]).
    repeat match goal with
           | E : map _ _ = [] |- _ => apply map_eq_nil in E
           end.
    intros []; assumption.
  - intros H. now rewrite !H.
Qed.

(** ** The keyword group *)

Lemma lang_max_width (icase : bool) (r : regex) :
  forall w n, lang U icase r w -> max_width r = Some n -> length w <= n.
Proof.
  induction r as [|a|min max a|r1 IH1 r2 IH2|r1 IH1 r2 IH2|g0 r1 IH1];
    intros w n L M; simpl in *.
  - subst w. simpl. lia.
  - destruct L as (c & -> & _). injection M as <-. simpl. lia.
  - subst max. simpl in L. tauto.
  - destruct L as (w1 & w2 & -> & L1 & L2). rewrite length_app.
    destruct (max_width r1) as [a|]; [|discriminate].
    destruct (max_width r2) as [b|]; [|discriminate].
    injection M as <-.
    specialize (IH1 w1 a L1 eq_refl). specialize (IH2 w2 b L2 eq_refl). lia.
  - destruct (max_width r1) as [a|]; [|discriminate].
    destruct (max_width r2) as [b|]; [|discriminate].
    injection M as <-.
    destruct L as [L|L];
      [specialize (IH1 w a L eq_refl)|specialize (IH2 w b L eq_refl)]; lia.
  - now apply IH1.
Qed.

Lemma lang_literals (icase : bool) (q : str) :
  forall w, lang U icase (literals q) w ->
  Forall2 (fun p c => lit_match U icase p c = true) q w.
Proof.
  induction q as [|p q IH]; intros w L; simpl in L.
  - subst w. constructor.
  - destruct L as (w1 & w2 & -> & (c & -> & M) & L2). simpl.
    constructor; [exact M|now apply IH].
Qed.

(** A match of a keyword pattern gives the word its first group
    consumed. *)
Lemma keyword_group_word (p : pattern) (text : str) (m : rmatch) :
  keyword_pattern p = true -> found_at U p text m ->
  exists w, findall_item p text m = IStr w /\ lang U true (keyword_of p) w.
Proof.
  unfold keyword_pattern, keyword_of. intros K [adv F]. unfold match_at in F.
  destruct (p_re p) as [| | |r1 tail| |]; try discriminate.
  destruct r1 as [| | | | |g kw]; try discriminate.
  destruct g as [|[|g]]; try discriminate.
  apply andb_true_iff in K. destruct K as [K Hic].
  apply andb_true_iff in K. destruct K as [K Hg].
  apply andb_true_iff in K. destruct K as [_ Htail].
  apply Nat.eqb_eq in Hg. rewrite Hic in F. simpl in F.
  apply run_sound in F. destruct F as (n & caps1 & Hn & L & _ & F).
  apply run_sound in F. destruct F as (n2 & caps2 & _ & _ & G & F).
  unfold accept in F.
  destruct (adv && Nat.eqb (m_start m + n + n2) (m_start m)); [discriminate|].
  injection F as _ F.
  exists (firstn n (skipn (m_start m) text)). split; [|exact L].
  unfold findall_item, group_or_empty, group. rewrite Hg, <- F.
  rewrite G.
  - simpl. unfold substr.
    now replace (m_start m + n - m_start m) with n by lia.
  - intros Hin. apply negb_true_iff in Htail.
    assert (X : existsb (Nat.eqb 1) (groups_of tail) = true).
    { apply existsb_exists. exists 1. split; [exact Hin|reflexivity]. }
    congruence.
Qed.

(** ** The name group *)

Lemma lstrip_Forall (P : char -> Prop) (s : str) :
  Forall P s -> Forall P (lstrip s).
Proof.
  induction 1 as [|c s Hc Hs IH]; simpl; [constructor|].
  destruct (isspace c); [exact IH|now constructor].
Qed.

Lemma strip_Forall (P : char -> Prop) (s : str) :
  Forall P s -> Forall P (strip s).
Proof.
  intros H. unfold strip, rstrip.
  apply Forall_rev, lstrip_Forall, Forall_rev, lstrip_Forall, H.
Qed.

(** A match of a name pattern gives two groups; the second holds
    characters of its class only. *)
Lemma name_group (p : pattern) (text : str) (m : rmatch) (a : atom) :
  name_pattern p = Some a -> found_at U p text m ->
  exists g1 g2,
    findall_item p text m = ITuple [g1; g2]
    /\ Forall (fun c => atom_match U true a c = true) g2.
Proof.
  unfold name_pattern. intros K [adv F]. unfold match_at in F.
  destruct (p_re p) as [| | |r1 t1| |]; try discriminate.
  destruct r1 as [| | | | |g kw]; try discriminate.
  destruct g as [|[|g]]; try discriminate.
  destruct t1 as [| | |sep t2| |]; try discriminate.
  destruct sep as [| |min1 max1 a1| | |]; try discriminate.
  destruct t2 as [| | |r2 t3| |]; try discriminate.
  destruct r2 as [| | | | |g2 body]; try discriminate.
  destruct g2 as [|[|[|g2]]]; try discriminate.
  destruct body as [| | |r3 t4| |]; try discriminate.
  destruct r3 as [| |min2 max2 a2| | |]; try discriminate.
  destruct t4; try discriminate. destruct t3; try discriminate.
  destruct (Nat.eqb (p_groups p) 2 && p_icase p) eqn:C; [|discriminate].
  injection K as ->.
  apply andb_true_iff in C. destruct C as [Hg Hic].
  apply Nat.eqb_eq in Hg. rewrite Hic in F. simpl in F.
  apply run_sound in F. destruct F as (n1 & caps1 & _ & _ & _ & F).
  cbv beta in F.
  apply rep_greedy_sound in F; [|destruct max1; simpl; [lia|exact I]].
  destruct F as (n2 & _ & _ & _ & _ & F).
  apply rep_greedy_sound in F; [|destruct max2; simpl; [lia|exact I]].
  destruct F as (n3 & _ & Hall & _ & _ & F).
  unfold accept in F.
  match type of F with
  | (if ?b then _ else _) = _ => destruct b; [discriminate|]
  end.
  injection F as _ F.
  eexists. exists (firstn n3 (skipn (m_start m + n1 + n2) text)). split.
  - unfold findall_item. rewrite Hg. simpl. f_equal. f_equal. f_equal.
    unfold group_or_empty, group. rewrite <- F. simpl. unfold substr.
    f_equal. lia.
  - rewrite !skipn_skipn in Hall.
    now replace (n2 + n1 + m_start m) with (m_start m + n1 + n2) in Hall
      by lia.
Qed.

End AnalyzeMore.

Section KeywordMore.

Variable U : unicode_db.
Hypothesis Hws : whitespace_uncased U.

Lemma nonblank_last_sound (r : regex) :
  forall w, nonblank_last r = true -> lang U true r w ->
  exists t c, w = t ++ [c] /\ isspace c = false.
Proof.
  induction r as [|a|min max a|r1 IH1 r2 IH2|r1 IH1 r2 IH2|g0 r1 IH1];
    intros w Hn L; simpl in Hn; try discriminate.
  - destruct a as [p| |]; try discriminate.
    destruct L as (c & -> & M). exists [], c. split; [reflexivity|].
    simpl in M. destruct (isspace c) eqn:Hc; [|reflexivity].
    rewrite (Hws p c M Hc) in Hn. discriminate.
  - destruct L as (w1 & w2 & -> & L1 & L2).
    assert (Tail : nonblank_last r2 = true ->
                   exists t c, w1 ++ w2 = t ++ [c] /\ isspace c = false).
    { intros H2. destruct (IH2 w2 H2 L2) as (t & c & -> & Hc).
      exists (w1 ++ t), c. now rewrite app_assoc. }
    destruct r2; try (now apply Tail).
    simpl in L2. subst w2. rewrite app_nil_r. now apply IH1.
  - apply andb_true_iff in Hn. destruct Hn as [Hn1 Hn2].
    destruct L as [L|L]; [now apply IH1|now apply IH2].
  - now apply IH1.
Qed.

(** A word that neither starts nor ends with whitespace is left as it
    is by [strip]. *)
Lemma strip_fixed (w : str) :
  (exists c t, w = c :: t /\ isspace c = false) ->
  (exists t c, w = t ++ [c] /\ isspace c = false) ->
  strip w = w.
Proof.
  intros (c & t & E & Hc) (t' & c' & E' & Hc'). unfold strip.
  rewrite E, (lstrip_nonspace c t Hc), <- E. unfold rstrip.
  rewrite E', rev_app_distr. simpl. rewrite Hc'. simpl.
  now rewrite rev_involutive.
Qed.

End KeywordMore.

(** X14: for every text, a row of the analysis needs a text at least as
    long as the shortest word of the pattern of its key: 4 characters for
    Juzgado, 3 for Expediente, 8 for Secretaría, 7 for Demandante and 11
    for Demandado.  A text of fewer than 3 characters, the empty text
    included, gives no row. *)
Theorem X14_rows_need_text (U : unicode_db) (text : str) :
  map key_width categories = [4; 3; 8; 7; 11]
  /\ exists rows,
       analyze_legal_data U text = Some rows
       /\ (forall r, In r rows -> key_width (Categoria r) <= length text)
       /\ (length text < 3 -> rows = []).
Proof.
  split; [reflexivity|]. eexists. split; [apply analyze_rows|].
  assert (W : forall r, In r (drop_duplicates (raw_rows U text)) ->
                        key_width (Categoria r) <= length text).
  { intros r Hr. apply drop_duplicates_from_In in Hr. destruct Hr as [Hr _].
    apply raw_rows_In in Hr. destruct Hr as (k & m & Hm & ->).
    rewrite row_of_category. now apply (finditer_width U (compiled k) text m). }
  split; [exact W|]. intros Hlen.
  destruct (drop_duplicates (raw_rows U text)) as [|r rows]; [reflexivity|].
  specialize (W r (or_introl eq_refl)).
  assert (3 <= key_width (Categoria r))
    by (destruct (Categoria r); vm_compute; lia).
  lia.
Qed.

(** X15: mode 2 of [main] raises in two cases only, both outside the
    program: the upload cannot be read, or the spreadsheet writer rejects
    the table of the analysis.  The analysis never raises.  Without an
    upload nothing is analysed.  With a readable upload, it shows the
    warning exactly when no pattern of the table matches anywhere in the
    joined text of the pages, as when that text has fewer than 3
    characters (a document without pages, for one); otherwise the rows
    of the analysis of that text, not empty, go to the writer and, once
    written, are shown. *)
Theorem X15_main_analisis (U : unicode_db) (to_excel : list row -> bool) :
  main_analisis U to_excel None = Some SinDocumento
  /\ main_analisis U to_excel (Some Ilegible) = None
  /\ main_analisis U to_excel (Some (Documento [])) = Some SinDatos
  /\ forall doc,
       let text := full_text (extract_text_with_pages doc) in
       let out := main_analisis U to_excel (Some (Documento doc)) in
       exists df,
         analyze_legal_data U text = Some df
         /\ (df = [] <-> forall k, finditer U (compiled k) text = [])
         /\ (out = None <-> df <> [] /\ to_excel df = false)
         /\ (out = Some SinDatos <-> df = [])
         /\ (out = Some (Datos df) <-> df <> [] /\ to_excel df = true)
         /\ out <> Some SinDocumento
         /\ (forall df', out = Some (Datos df') -> df' = df)
         /\ (length text < 3 -> out = Some SinDatos).
Proof.
  split; [reflexivity|]. split; [reflexivity|].
  split; [vm_compute; reflexivity|].
  intros doc text out. subst out. unfold main_analisis. fold text.
  rewrite analyze_rows.
  pose proof (drop_duplicates_nil (raw_rows U text)) as D.
  pose proof (raw_rows_nil U text) as R.
  assert (Short : length text < 3 ->
                  forall k, finditer U (compiled k) text = []).
  { intros Hlen k.
    destruct (finditer U (compiled k) text) as [|m ms] eqn:Ef;
      [reflexivity|].
    assert (Hm : In m (finditer U (compiled k) text))
      by (rewrite Ef; now left).
    apply finditer_width in Hm.
    assert (3 <= min_width (p_re (compiled k)))
      by (destruct k; vm_compute; lia).
    lia. }
  exists (drop_duplicates (raw_rows U text)). split; [reflexivity|].
  split.
  { split.
    - intros E. exact (proj1 R (proj1 D E)).
    - intros H. exact (proj2 D (proj2 R H)). }
  destruct (drop_duplicates (raw_rows U text)) as [|fila filas] eqn:Ed.
  - split; [split; [discriminate|intros [H _]; congruence]|].
    split; [tauto|].
    split; [split; [discriminate|intros [H _]; congruence]|].
    split; [discriminate|].
    split; [discriminate|]. reflexivity.
  - assert (Long : ~ length text < 3).
    { intros Hlen. pose proof (proj2 D (proj2 R (Short Hlen))) as X.
      discriminate X. }
    destruct (to_excel (fila :: filas)) eqn:Ex.
    + split; [split; [discriminate|intros [_ H]; discriminate H]|].
      split; [split; discriminate|].
      split; [split; [intros _; split; [discriminate|reflexivity]
                     |reflexivity]|].
      split; [discriminate|].
      split; [intros df' E; now injection E as <-|].
      intros Hlen. now destruct Long.
    + split; [split; [intros _; split; [discriminate|reflexivity]
                     |reflexivity]|].
      split; [split; discriminate|].
      split; [split; [discriminate|intros [_ H]; discriminate H]|].
      split; [discriminate|].
      split; [discriminate|].
      intros Hlen. now destruct Long.
Qed.

(** X16: when whitespace has no case variant, the value of every row of
    key Juzgado, Expediente or Secretaría is the keyword as the text
    writes it: a word of the first group of the pattern of the key,
    between 2 and 10 characters long, and nothing of what follows the
    keyword.  For Juzgado it is Juzgado, Sala or Tribunal in some
    case. *)
Theorem X16_keyword_values (U : unicode_db) (text : str) :
  whitespace_uncased U ->
  exists rows,
    analyze_legal_data U text = Some rows
    /\ forall r, In r rows ->
         (Categoria r = Juzgado \/ Categoria r = Expediente
          \/ Categoria r = Secretaria ->
          lang U true (keyword_of (compiled (Categoria r))) (Valor r)
          /\ 2 <= length (Valor r) <= 10)
         /\ (Categoria r = Juzgado ->
             exists kw,
               In kw [utf8 "Juzgado"; utf8 "Sala"; utf8 "Tribunal"]
               /\ Forall2 (fun p c => lit_match U true p c = true)
                          kw (Valor r)).
Proof.
  intros Hws. eexists. split; [apply analyze_rows|].
  intros r Hr. apply drop_duplicates_from_In in Hr. destruct Hr as [Hr _].
  apply raw_rows_In in Hr. destruct Hr as (k & m & Hm & ->).
  rewrite row_of_category.
  assert (Word : k = Juzgado \/ k = Expediente \/ k = Secretaria ->
    lang U true (keyword_of (compiled k))
         (Valor (row_of k (findall_item (compiled k) text m)))).
  { intros Hk.
    assert (K : keyword_pattern (compiled k) = true)
      by (destruct Hk as [->|[->| ->]]; reflexivity).
    assert (Hh : nonblank_head (keyword_of (compiled k)) = true)
      by (destruct Hk as [->|[->| ->]]; reflexivity).
    assert (Hl : nonblank_last (keyword_of (compiled k)) = true)
      by (destruct Hk as [->|[->| ->]]; reflexivity).
    destruct (finditer_sound U (compiled k) text) as [F _].
    rewrite Forall_forall in F. destruct (F m Hm) as (_ & _ & Hf).
    destruct (keyword_group_word U (compiled k) text m K Hf) as (w & E & L).
    rewrite E. simpl.
    rewrite (strip_fixed w
               (nonblank_head_sound U Hws _ w Hh L)
               (nonblank_last_sound U Hws _ w Hl L)).
    exact L. }
  split.
  - intros Hk. specialize (Word Hk). split; [exact Word|].
    pose proof (lang_min_width U true _ _ Word) as Lo.
    assert (Hi : exists n, max_width (keyword_of (compiled k)) = Some n
                           /\ n <= 10)
      by (destruct Hk as [->|[->| ->]]; eexists; split;
          try reflexivity; simpl; lia).
    destruct Hi as (n & Hn & Hle).
    pose proof (lang_max_width U true _ _ n Word Hn) as Hi.
    assert (2 <= min_width (keyword_of (compiled k)))
      by (destruct Hk as [->|[->| ->]]; vm_compute; lia).
    lia.
  - intros ->. specialize (Word (or_introl eq_refl)).
    change (keyword_of (compiled Juzgado))
      with (Alt (literals (utf8 "Juzgado"))
                (Alt (literals (utf8 "Sala")) (literals (utf8 "Tribunal"))))
      in Word.
    destruct Word as [L|[L|L]]; apply lang_literals in L;
      eexists; (split; [|exact L]); simpl; auto.
Qed.

(** X16 at a text with a court and a case number. *)
Lemma X16_keyword_values_witness :
  exists rows,
    analyze_legal_data latin1 (utf8 "TRIBUNAL Superior, Toca 12/2024") = Some rows
    /\ map Valor rows = [utf8 "TRIBUNAL"; utf8 "Toca"].
Proof.
  destruct (X16_keyword_values latin1 (utf8 "TRIBUNAL Superior, Toca 12/2024")
              latin1_whitespace_uncased) as (rows & E & _).
  exists rows. split; [exact E|].
  vm_compute in E. injection E as <-. reflexivity.
Defined.

(** X17: for every text, the value of every row of key Demandante or
    Demandado is made of characters of the class of the name group
    only (letters A to Z in either case, the accented capitals of the
    class and their lower case, whitespace and the dot); under the
    Latin-1 database no digit and no colon is in that class, so the value
    stops before the first of them. *)
Theorem X17_name_values (U : unicode_db) (text : str) :
  name_pattern (compiled Demandante) = Some name_class
  /\ name_pattern (compiled Demandado) = Some name_class
  /\ (forall c, (48 <= c <= 58)%N ->
        atom_match latin1 true name_class c = false)
  /\ exists rows,
       analyze_legal_data U text = Some rows
       /\ forall r, In r rows ->
            Categoria r = Demandante \/ Categoria r = Demandado ->
            Forall (fun c => atom_match U true name_class c = true) (Valor r).
Proof.
  split; [reflexivity|]. split; [reflexivity|]. split.
  - intros c Hc.
    assert (C : In c [48; 49; 50; 51; 52; 53; 54; 55; 56; 57; 58]%N)
      by (simpl; lia).
    repeat (destruct C as [<-|C]; [vm_compute; reflexivity|]). destruct C.
  - eexists. split; [apply analyze_rows|].
    intros r Hr Hk. apply drop_duplicates_from_In in Hr. destruct Hr as [Hr _].
    apply raw_rows_In in Hr. destruct Hr as (k & m & Hm & ->).
    rewrite row_of_category in Hk.
    assert (K : name_pattern (compiled k) = Some name_class)
      by (destruct Hk as [->| ->]; reflexivity).
    destruct (finditer_sound U (compiled k) text) as [F _].
    rewrite Forall_forall in F. destruct (F m Hm) as (_ & _ & Hf).
    destruct (name_group U (compiled k) text m name_class K Hf)
      as (g1 & g2 & E & Hall).
    rewrite E. simpl. now apply strip_Forall.
Qed.
